(** * The catalog loader of streamflixx: [src/hooks/useStreams.ts]

    A shallow embedding of the [useStreams] hook: the JSON values the
    loader receives, the three React state cells it owns, the toast and
    console side effects, and the asynchronous [loadStreams] /
    [refreshStreams] callbacks with their [try]/[catch]/[finally]
    structure and their two suspension points ([await fetch(...)] and
    [await response.json()]). *)

From Stdlib Require Import String Ascii List Bool Arith ZArith Lia.
From Stdlib Require Import DecimalString DecimalNat.
From ExtLib Require Import Structures.Monad Structures.MonadExc.
Import ListNotations.
Import MonadNotation.
Local Open Scope string_scope.
Local Open Scope monad_scope.
Set Warnings "-register-all".

(** ** JSON values, as produced by [response.json()] *)

Module Json.

(** The numeric payload is never inspected by the loader; only the fact
    that [typeof] answers ["number"] matters, so an integer stands for it.
    An object is the list of its own properties in insertion order; the
    keys of a parsed object are distinct. *)
Inductive json : Type :=
| JNull
| JBool (b : bool)
| JNumber (n : Z)
| JString (s : string)
| JArray (elems : list json)
| JObject (props : list (string * json)).

(** The result of evaluating an expression: a JSON value or [undefined]
    (what a read of an absent property gives). *)
Inductive js_value : Type :=
| Undefined
| Val (v : json).

(** [typeof v]; note the historical [typeof null === 'object']. *)
Definition typeof (v : js_value) : string :=
  match v with
  | Undefined => "undefined"
  | Val JNull => "object"
  | Val (JBool _) => "boolean"
  | Val (JNumber _) => "number"
  | Val (JString _) => "string"
  | Val (JArray _) => "object"
  | Val (JObject _) => "object"
  end.

(** [Array.isArray(data)] *)
Definition isArray (data : json) : bool :=
  match data with
  | JArray _ => true
  | _ => false
  end.

(** Own-property lookup in an object literal. *)
Fixpoint lookup (key : string) (props : list (string * json)) : js_value :=
  match props with
  | [] => Undefined
  | (k, v) :: rest => if String.eqb k key then Val v else lookup key rest
  end.

End Json.
Export Json.

(** ** The [Stream] interface of [@/types/stream] *)

(** The three property names the loader reads.  None of them is defined on
    a built-in prototype, so reading one from an array or a primitive gives
    [undefined]. *)
Inductive stream_key : Type := Ktitle | Kimage | Kstream.

Definition key_name (k : stream_key) : string :=
  match k with
  | Ktitle => "title"
  | Kimage => "image"
  | Kstream => "stream"
  end.

(** ** Exceptions and promises *)

(** A thrown value: an instance of [Error] carrying its [message], or any
    other value (for which [err instanceof Error] is false). *)
Inductive thrown : Type :=
| JsError (message : string)
| NonError.

(** A settled promise. *)
Inductive settled (R : Type) : Type :=
| Fulfilled (r : R)
| Rejected (e : thrown).
Arguments Fulfilled {R} r.
Arguments Rejected {R} e.

(** What the loader uses of a [Response]: its [ok] flag and what the
    promise returned by [response.json()] settles to. *)
Record response : Type := mkResponse {
  ok : bool;
  body : settled json
}.

(** The two asynchronous operations the loader awaits. *)
Inductive op : Type :=
| Fetch (url : string)
| ResponseJson (r : response).

Definition op_result (o : op) : Type :=
  match o with
  | Fetch _ => response
  | ResponseJson _ => json
  end.

(** ** Observable effects of the hook *)

(** The argument of [toast({ title, description, variant })]. *)
Record toast_args : Type := mkToast {
  toast_title : string;
  toast_description : string;
  toast_variant : option string
}.

Inductive effect : Type :=
| SetStreams (l : list json)
| SetLoading (b : bool)
| SetError (e : option string)
| Toast (t : toast_args)
| ConsoleWarn (msg : string).

(** ** Asynchronous computations

    A computation returns, throws, performs a synchronous effect and goes
    on, or suspends at an [await] until the awaited promise settles. *)
Inductive Async (A : Type) : Type :=
| Ret (a : A)
| Throw (e : thrown)
| Do (ef : effect) (k : Async A)
| Await (o : op) (k : settled (op_result o) -> Async A).
Arguments Ret {A} a.
Arguments Throw {A} e.
Arguments Do {A} ef k.
Arguments Await {A} o k.

Fixpoint abind {A B : Type} (m : Async A) (f : A -> Async B) : Async B :=
  match m with
  | Ret a => f a
  | Throw e => Throw e
  | Do ef k => Do ef (abind k f)
  | Await o k => Await o (fun s => abind (k s) f)
  end.

(** [try { m } catch (err) { h err }] *)
Fixpoint acatch {A : Type} (m : Async A) (h : thrown -> Async A) : Async A :=
  match m with
  | Ret a => Ret a
  | Throw e => h e
  | Do ef k => Do ef (acatch k h)
  | Await o k => Await o (fun s => acatch (k s) h)
  end.

(** [try { m } finally { fin }]: [fin] runs on both exits; the completion
    of [m] is kept unless [fin] itself throws. *)
Fixpoint finally {A : Type} (m : Async A) (fin : Async unit) : Async A :=
  match m with
  | Ret a => abind fin (fun _ => Ret a)
  | Throw e => abind fin (fun _ => Throw e)
  | Do ef k => Do ef (finally k fin)
  | Await o k => Await o (fun s => finally (k s) fin)
  end.

#[export] Instance Monad_Async : Monad Async :=
  {| ret := @Ret; bind := @abind |}.

#[export] Instance MonadExc_Async : MonadExc thrown Async :=
  {| raise := @Throw; catch := @acatch |}.

(** [await p]: the value of a fulfilled promise, or its rejection rethrown
    at the suspension point. *)
Definition await (o : op) : Async (op_result o) :=
  Await o (fun s =>
    match s with
    | Fulfilled r => Ret r
    | Rejected e => Throw e
    end).

Definition perform (ef : effect) : Async unit := Do ef (Ret tt).

Definition setStreams (l : list json) : Async unit := perform (SetStreams l).
Definition setLoading (b : bool) : Async unit := perform (SetLoading b).
Definition setError (e : option string) : Async unit := perform (SetError e).
Definition toast (t : toast_args) : Async unit := perform (Toast t).
Definition console_warn (msg : string) : Async unit := perform (ConsoleWarn msg).

(** [if (c) { m }] *)
Definition when (c : bool) (m : Async unit) : Async unit :=
  if c then m else ret tt.

(** [arr.filter(p)] with a callback that may throw: the callback is applied
    to the elements in index order and the first exception aborts the
    whole call. *)
Fixpoint filterM {A : Type} (p : A -> Async bool) (l : list A) : Async (list A) :=
  match l with
  | [] => ret []
  | x :: rest =>
      keep <- p x ;;
      kept <- filterM p rest ;;
      ret (if (keep : bool) then x :: kept else kept)
  end.

(** ** The hook *)

(** The three toasts of the hook (lines 45-49, 54-58 and 65-68). *)
Definition no_content_toast : toast_args :=
  {| toast_title := "No Content";
     toast_description := "No valid streams were found in the data file.";
     toast_variant := Some "destructive" |}.

Definition loading_error_toast (errorMessage : string) : toast_args :=
  {| toast_title := "Loading Error";
     toast_description := errorMessage;
     toast_variant := Some "destructive" |}.

Definition refreshing_toast : toast_args :=
  {| toast_title := "Refreshing...";
     toast_description := "Loading latest content from streams.json";
     toast_variant := None |}.

Definition string_of_nat (n : nat) : string :=
  NilEmpty.string_of_uint (Nat.to_uint n).

(** The template literal of line 38. *)
Definition filtered_out_warning (dropped : nat) : string :=
  "Filtered out " ++ string_of_nat dropped ++ " invalid stream entries".

Section UseStreams.

(** The message of the [TypeError] the engine raises for a property read
    on [null]; the text differs between engines. *)
Variable null_read_message : stream_key -> string.

(** [target.key] for one of the three [Stream] keys. *)
Definition getProp (target : json) (key : stream_key) : Async js_value :=
  match target with
  | JNull => raise (JsError (null_read_message key))
  | JObject props => ret (lookup (key_name key) props)
  | _ => ret Undefined
  end.

(** [typeof stream.key === 'string'] *)
Definition propIsString (stream : json) (key : stream_key) : Async bool :=
  v <- getProp stream key ;;
  ret (typeof v =? "string").

(** [a && b] with a right operand that is only evaluated when the left
    one is true. *)
Definition andThen (a : bool) (b : Async bool) : Async bool :=
  if a then b else ret false.

(** The callback of [data.filter] (lines 28-35). *)
Definition isStream (stream : json) : Async bool :=
  andThen (typeof (Val stream) =? "object")
    (t <- propIsString stream Ktitle ;;
     andThen t
       (i <- propIsString stream Kimage ;;
        andThen i (propIsString stream Kstream))).

(** [err instanceof Error ? err.message : 'Failed to load streams'] *)
Definition errorMessage (err : thrown) : string :=
  match err with
  | JsError message => message
  | NonError => "Failed to load streams"
  end.

(** The body of the [try] block (lines 13-50). *)
Definition loadStreams_try : Async unit :=
  setLoading true ;;
  setError None ;;
  response <- await (Fetch "/streams.json") ;;
  when (negb (ok response))
    (raise (JsError "Failed to load streams data")) ;;
  data <- await (ResponseJson response) ;;
  match data with
  | JArray elems =>
      validStreams <- filterM isStream elems ;;
      when (negb (length validStreams =? length elems)%nat)
        (console_warn
           (filtered_out_warning (length elems - length validStreams))) ;;
      setStreams validStreams ;;
      when (length validStreams =? 0)%nat
        (setError (Some "No valid streams found") ;;
         toast no_content_toast)
  | _ => raise (JsError "Invalid streams data format")
  end.

(** The [catch] block (lines 51-58). *)
Definition loadStreams_catch (err : thrown) : Async unit :=
  setError (Some (errorMessage err)) ;;
  toast (loading_error_toast (errorMessage err)).

(** [loadStreams] (lines 11-62). *)
Definition loadStreams : Async unit :=
  finally (catch loadStreams_try loadStreams_catch) (setLoading false).

(** [refreshStreams] (lines 64-70).  The promise returned by
    [loadStreams()] is dropped and nothing follows the call, so the task
    started by [refreshStreams()] is the toast followed by the load. *)
Definition refreshStreams : Async unit :=
  toast refreshing_toast ;;
  loadStreams.

End UseStreams.

(** ** Published state and the interpretation of effects *)

(** The three [useState] cells of the hook, together with the toasts shown
    and the console warnings written so far (most recent last). *)
Record world : Type := mkWorld {
  streams : list json;
  loading : bool;
  error : option string;
  toasts : list toast_args;
  console : list string
}.

(** The state at mount time (lines 6-8). *)
Definition initial_world : world :=
  {| streams := []; loading := true; error := None;
     toasts := []; console := [] |}.

Definition apply_effect (ef : effect) (w : world) : world :=
  match ef with
  | SetStreams l =>
      {| streams := l; loading := loading w; error := error w;
         toasts := toasts w; console := console w |}
  | SetLoading b =>
      {| streams := streams w; loading := b; error := error w;
         toasts := toasts w; console := console w |}
  | SetError e =>
      {| streams := streams w; loading := loading w; error := e;
         toasts := toasts w; console := console w |}
  | Toast t =>
      {| streams := streams w; loading := loading w; error := error w;
         toasts := toasts w ++ [t]; console := console w |}
  | ConsoleWarn msg =>
      {| streams := streams w; loading := loading w; error := error w;
         toasts := toasts w; console := console w ++ [msg] |}
  end.

Definition apply_effects (efs : list effect) (w : world) : world :=
  fold_left (fun acc ef => apply_effect ef acc) efs w.

(** ** The Catalog Source

    What a request to a given URL settles to.  The source is stable: every
    request to the same URL gets the same answer. *)
Definition network : Type := string -> settled response.

Definition settle (net : network) (o : op) : settled (op_result o) :=
  match o with
  | Fetch url => net url
  | ResponseJson r => body r
  end.

(** How a computation ends. *)
Inductive completion (A : Type) : Type :=
| Normal (a : A)
| Abrupt (e : thrown).
Arguments Normal {A} a.
Arguments Abrupt {A} e.

(** One whole cycle: every [await] is answered by the source. *)
Fixpoint run {A : Type} (net : network) (m : Async A) (w : world)
  : world * completion A :=
  match m with
  | Ret a => (w, Normal a)
  | Throw e => (w, Abrupt e)
  | Do ef k => run net k (apply_effect ef w)
  | Await o k => run net (k (settle net o)) w
  end.

(** The effects of a whole cycle, in the order they are performed. *)
Fixpoint trace {A : Type} (net : network) (m : Async A) : list effect :=
  match m with
  | Ret _ => []
  | Throw _ => []
  | Do ef k => ef :: trace net k
  | Await o k => trace net (k (settle net o))
  end.

(** ** The event loop

    Synchronous code runs to completion: a task runs until it suspends at
    an [await] or ends, and only then may another task be resumed. *)
Fixpoint run_sync {A : Type} (m : Async A) (w : world) : world * Async A :=
  match m with
  | Do ef k => run_sync k (apply_effect ef w)
  | _ => (w, m)
  end.

Definition task : Type := Async unit.

Definition finished (t : task) : bool :=
  match t with
  | Ret _ => true
  | Throw _ => true
  | _ => false
  end.

(** The published state and the tasks started so far, each one suspended
    or ended. *)
Definition loop_state : Type := world * list task.

(** Calling an async function: its synchronous prefix runs at once. *)
Definition spawn (t : task) (c : loop_state) : loop_state :=
  let (w', t') := run_sync t (fst c) in (w', (snd c ++ [t'])%list).

(** One turn of the loop: some suspended task is resumed with the
    settlement of the promise it awaits and runs to its next suspension. *)
Inductive loop_step (net : network) : loop_state -> loop_state -> Prop :=
| loop_resume (w w' : world) (before after : list task) (o : op)
    (k : settled (op_result o) -> task) (t' : task) :
    run_sync (k (settle net o)) w = (w', t') ->
    loop_step net (w, (before ++ Await o k :: after)%list)
                  (w', (before ++ t' :: after)%list).

Inductive loop_steps (net : network) : loop_state -> loop_state -> Prop :=
| loop_refl (c : loop_state) : loop_steps net c c
| loop_trans (c1 c2 c3 : loop_state) :
    loop_step net c1 c2 -> loop_steps net c2 c3 -> loop_steps net c1 c3.

(** Nothing is left to resume. *)
Definition quiescent (c : loop_state) : bool := forallb finished (snd c).

(** The depth of a task: how many turns of the loop it still needs. *)
Fixpoint turns_left {A : Type} (net : network) (m : Async A) : nat :=
  match m with
  | Ret _ => 0
  | Throw _ => 0
  | Do _ k => turns_left net k
  | Await o k => S (turns_left net (k (settle net o)))
  end.

(** ** One load cycle, as the Presentation Layer observes it *)

(** The published state after a whole [loadStreams()] cycle started in
    state [w]. *)
Definition load (null_read_message : stream_key -> string)
  (net : network) (w : world) : world :=
  fst (run net (loadStreams null_read_message) w).

(** Two [refreshStreams()] calls in immediate succession: both synchronous
    prefixes run before the loop resumes anything. *)
Definition refresh_twice (null_read_message : stream_key -> string)
  (w : world) : loop_state :=
  spawn (refreshStreams null_read_message)
    (spawn (refreshStreams null_read_message) (w, [])).

(** What a list of effects leaves in the [streams] cell. *)
Definition published (efs : list effect) (before : list json) : list json :=
  fold_left
    (fun acc ef => match ef with SetStreams l => l | _ => acc end)
    efs before.

Definition is_SetStreams (ef : effect) : bool :=
  match ef with
  | SetStreams _ => true
  | _ => false
  end.

(** Every [setStreams] call among the effects publishes [target]. *)
Definition only_publishes (target : list json) (efs : list effect) : Prop :=
  Forall (fun ef => forall l, ef = SetStreams l -> l = target) efs.

(** A task the loop can hold: suspended at an [await], or ended. *)
Definition parked (t : task) : bool :=
  match t with
  | Do _ _ => false
  | _ => true
  end.

(** The turns all tasks of the pool still need. *)
Definition pool_turns (net : network) (pool : list task) : nat :=
  list_sum (map (turns_left net) pool).

(** The loop is on its way to publish [target]: no task left publishes
    anything else, and [target] is published already or some task left
    will publish it. *)
Definition converging (net : network) (target : list json) (c : loop_state)
  : Prop :=
  Forall (fun t => only_publishes target (trace net t)) (snd c)
  /\ (streams (fst c) = target
      \/ Exists (fun t => existsb is_SetStreams (trace net t) = true) (snd c)).

(** ** The vocabulary of the spec *)

(** The CatalogEntry validity invariant: an entry is valid iff all three
    fields are present and are text values. *)
Definition is_text (v : js_value) : bool :=
  match v with
  | Val (JString _) => true
  | _ => false
  end.

Definition validEntry (entry : json) : bool :=
  match entry with
  | JObject props =>
      is_text (lookup "title" props)
      && is_text (lookup "image" props)
      && is_text (lookup "stream" props)
  | _ => false
  end.

Definition is_object (v : json) : bool :=
  match v with
  | JObject _ => true
  | _ => false
  end.

Definition is_null (v : json) : bool :=
  match v with
  | JNull => true
  | _ => false
  end.

(** The source answers with an OK status and a body that parses to the
    array [elems]. *)
Definition serves_array (net : network) (elems : list json) : Prop :=
  net "/streams.json"
  = Fulfilled {| ok := true; body := Fulfilled (JArray elems) |}.

(** A transport failure and the error it raises in the cycle: the
    rejection of the request, or the loader's own error for a non-OK
    status (line 18). *)
Definition transport_failure (answer : settled response) : option thrown :=
  match answer with
  | Rejected e => Some e
  | Fulfilled r =>
      if ok r then None else Some (JsError "Failed to load streams data")
  end.

(** A format failure of an OK response and the error it raises: the
    rejection of [response.json()], or the loader's own error for a parsed
    value that is not an array (line 24). *)
Definition format_failure (answer : settled response) : option thrown :=
  match answer with
  | Rejected _ => None
  | Fulfilled r =>
      if ok r then
        match body r with
        | Rejected e => Some e
        | Fulfilled data =>
            if isArray data then None
            else Some (JsError "Invalid streams data format")
        end
      else None
  end.

(** A failure in the fetch or parse steps. *)
Definition fetch_or_parse_failure (net : network) : option thrown :=
  match transport_failure (net "/streams.json") with
  | Some e => Some e
  | None => format_failure (net "/streams.json")
  end.

(** The three end states of the postcondition of [load()]. *)
Definition state_loaded (w : world) : Prop :=
  streams w <> [] /\ error w = None.

Definition state_nothing_valid (w : world) : Prop :=
  streams w = [] /\ error w = Some "No valid streams found".

Definition state_failed (net : network) (w : world) : Prop :=
  exists e, fetch_or_parse_failure net = Some e
            /\ error w = Some (errorMessage e).

(** The effects of a cycle that ends in the [catch] block with [err]. *)
Definition failed_cycle (err : thrown) : list effect :=
  [ SetLoading true; SetError None;
    SetError (Some (errorMessage err));
    Toast (loading_error_toast (errorMessage err));
    SetLoading false ].

(** The effects of a cycle whose filter kept [kept] out of [total]
    elements. *)
Definition publishing_cycle (kept : list json) (total : nat) : list effect :=
  ([ SetLoading true; SetError None ]
   ++ (if (length kept =? total)%nat then []
       else [ ConsoleWarn (filtered_out_warning (total - length kept)) ])
   ++ [ SetStreams kept ]
   ++ (if (length kept =? 0)%nat
       then [ SetError (Some "No valid streams found");
              Toast no_content_toast ]
       else [])
   ++ [ SetLoading false ])%list.

(** ** Sample data *)

(** V8's wording of the [TypeError] for a property read on [null]. *)
Definition v8_null_read_message (key : stream_key) : string :=
  "Cannot read properties of null (reading '" ++ key_name key ++ "')".

(** A source that answers every request with status OK and the given
    parsed body. *)
Definition serve (data : json) : network :=
  fun _ => Fulfilled {| ok := true; body := Fulfilled data |}.

(** The two entries of scenario A, and one with a field beyond the three
    required ones. *)
Definition entryA : json :=
  JObject [("title", JString "A"); ("image", JString "a.jpg");
           ("stream", JString "a.mp4")].

Definition entryB : json := JObject [("title", JString "B")].

Definition entryC : json :=
  JObject [("title", JString "C"); ("year", JNumber 1999);
           ("image", JString "c.jpg"); ("stream", JString "c.m3u8")].

(** A state in which a catalog was published by an earlier cycle. *)
Definition loaded_world : world :=
  {| streams := [entryA]; loading := false; error := None;
     toasts := []; console := [] |}.

(** ** The [Stream] values behind the type guard

    [data.filter((stream): stream is Stream => ...)] narrows the elements
    it keeps to the [Stream] interface of [@/types/stream], which the
    components read: three string fields. *)
Record Stream : Type := mkStream {
  title : string;
  image : string;
  stream : string
}.

Definition text_of (v : js_value) : option string :=
  match v with
  | Val (JString s) => Some s
  | _ => None
  end.

(** A runtime value read as a [Stream]: defined when the three fields are
    there as strings. *)
Definition as_stream (entry : json) : option Stream :=
  match entry with
  | JObject props =>
      match text_of (lookup "title" props),
            text_of (lookup "image" props),
            text_of (lookup "stream" props) with
      | Some t, Some i, Some s => Some (mkStream t i s)
      | _, _, _ => None
      end
  | _ => None
  end.

(** ** The page: [src/pages/Index.tsx] and [src/components/Header.tsx] *)

(** Truthiness of a [string | null]: [null] and the empty string are
    falsy. *)
Definition truthy (error : option string) : bool :=
  match error with
  | Some s => negb (s =? "")
  | None => false
  end.

(** The four alternative regions of the page body (lines 28-40, 42-49,
    51-62 and 64-78 of [Index.tsx]).  The grid holds one [MovieCard] per
    stream. *)
Inductive view : Type :=
| ErrorPanel (message : string)
| Skeletons (count : nat)
| Grid (cards : list json)
| EmptyState.

(** [{cond && (<jsx/>)}] *)
Definition shown_if (cond : bool) (v : view) : list view :=
  if cond then [v] else [].

(** The text React puts in place of [{error}]. *)
Definition error_text (error : option string) : string :=
  match error with
  | Some message => message
  | None => ""
  end.

(** What is rendered: the [disabled] attribute of the header's Refresh
    button, the regions of the page body in document order, and the stream
    of the player modal if one is open. *)
Record page : Type := mkPage {
  refresh_disabled : bool;
  regions : list view;
  player : option json
}.

(** [Header]: [disabled={isLoading}], with [isLoading = false] when the
    prop is not passed (lines 9 and 25 of [Header.tsx]). *)
Definition Header (isLoading : option bool) : bool :=
  match isLoading with
  | Some flag => flag
  | None => false
  end.

(** [Index] (lines 23-89 of [Index.tsx]), on what [useStreams()] returned
    and the [selectedStream] cell. *)
Definition Index (streams : list json) (loading : bool)
  (error : option string) (selectedStream : option json) : page :=
  {| refresh_disabled := Header (Some loading);
     regions :=
       (shown_if (truthy error && negb loading)
          (ErrorPanel (error_text error))
        ++ shown_if loading (Skeletons 12)
        ++ shown_if (negb loading && negb (truthy error)
                     && (0 <? length streams)%nat)
             (Grid streams)
        ++ shown_if (negb loading && negb (truthy error)
                     && (length streams =? 0)%nat)
             EmptyState)%list;
     player := selectedStream |}.

(** The key of the card at [index] (line 56 of [Index.tsx]). *)
Definition card_key (s : Stream) (index : nat) : string :=
  title s ++ "-" ++ string_of_nat index.

(** The keys of [streams.map((stream, index) => ...)], the first card
    being at [index]. *)
Fixpoint keys_from (index : nat) (ss : list Stream) : list string :=
  match ss with
  | [] => []
  | s :: rest => card_key s index :: keys_from (S index) rest
  end.

Definition grid_keys (ss : list Stream) : list string := keys_from 0 ss.

(** No character of the string is a dash. *)
Fixpoint no_dash (s : string) : bool :=
  match s with
  | EmptyString => true
  | String c rest => negb (Ascii.eqb c "-") && no_dash rest
  end.

(** The buttons whose [onClick] is [refreshStreams]: the header's Refresh,
    "Try Again" in the error panel and "Refresh Library" in the empty
    state. *)
Inductive button : Type :=
| RefreshButton (disabled : bool)
| TryAgain
| RefreshLibrary.

Definition view_buttons (v : view) : list button :=
  match v with
  | ErrorPanel _ => [TryAgain]
  | EmptyState => [RefreshLibrary]
  | _ => []
  end.

Definition refresh_buttons (p : page) : list button :=
  RefreshButton (refresh_disabled p) :: flat_map view_buttons (regions p).

Definition clickable (b : button) : bool :=
  match b with
  | RefreshButton disabled => negb disabled
  | _ => true
  end.

Definition can_refresh (p : page) : bool :=
  existsb clickable (refresh_buttons p).

(** The page rendered from the state of the hook. *)
Definition page_of (w : world) (selectedStream : option json) : page :=
  Index (streams w) (loading w) (error w) selectedStream.

(** ** The mounted component

    [useEffect(() => { loadStreams(); }, [loadStreams])] (lines 72-74 of
    [useStreams.ts]): mounting starts one load from the initial state.
    [loadStreams] depends on [toast] only and keeps its identity from one
    render to the next, so the effect runs once. *)
Definition mount (null_read_message : stream_key -> string) : loop_state :=
  spawn (loadStreams null_read_message) (initial_world, []).

(** What can happen to a mounted page: the loop takes a turn, or the user
    clicks a refresh button that the page, rendered from the state between
    two turns, offers enabled.  A click is handled between two turns, and
    the state updates of a click handler are on the screen before the next
    click is handled. *)
Inductive ui_step (null_read_message : stream_key -> string)
  (net : network) : loop_state -> loop_state -> Prop :=
| ui_turn (c c' : loop_state) :
    loop_step net c c' -> ui_step null_read_message net c c'
| ui_refresh (c : loop_state) (selectedStream : option json) :
    can_refresh (page_of (fst c) selectedStream) = true ->
    ui_step null_read_message net c
      (spawn (refreshStreams null_read_message) c).

Inductive ui_steps (null_read_message : stream_key -> string)
  (net : network) : loop_state -> loop_state -> Prop :=
| ui_refl (c : loop_state) : ui_steps null_read_message net c c
| ui_trans (c1 c2 c3 : loop_state) :
    ui_step null_read_message net c1 c2 ->
    ui_steps null_read_message net c2 c3 ->
    ui_steps null_read_message net c1 c3.

(** The tasks of the pool that have not ended. *)
Definition in_flight_tasks (c : loop_state) : list task :=
  filter (fun t => negb (finished t)) (snd c).

(** ** Writes to the loading flag, whatever the promises settle to *)

Definition is_SetLoading (ef : effect) : bool :=
  match ef with
  | SetLoading _ => true
  | _ => false
  end.

(** The computation never writes the flag. *)
Fixpoint quiet {A : Type} (m : Async A) : Prop :=
  match m with
  | Ret _ => True
  | Throw _ => True
  | Do ef k => is_SetLoading ef = false /\ quiet k
  | Await o k => forall s, quiet (k s)
  end.

(** The computation writes the flag once, to false, as the last thing it
    does. *)
Fixpoint resetting (m : task) : Prop :=
  match m with
  | Ret _ => False
  | Throw _ => False
  | Do (SetLoading flag) k => flag = false /\ finished k = true
  | Do _ k => resetting k
  | Await o k => forall s, resetting (k s)
  end.

(** A suspended task that is still to reset the flag. *)
Definition in_flight (t : task) : Prop :=
  match t with
  | Await o k => forall s, resetting (k s)
  | _ => False
  end.

(** The state of a mounted page between two turns: no cycle is running and
    the flag is down, or exactly one is and the flag is up. *)
Definition one_cycle_at_a_time (c : loop_state) : Prop :=
  (quiescent c = true /\ loading (fst c) = false)
  \/ (exists before t after,
        snd c = (before ++ t :: after)%list
        /\ forallb finished before = true
        /\ forallb finished after = true
        /\ in_flight t
        /\ loading (fst c) = true).

(** Every [setStreams] call among the effects publishes valid entries
    only. *)
Definition publishes_valid (efs : list effect) : Prop :=
  Forall (fun ef => forall l, ef = SetStreams l ->
                              forallb validEntry l = true) efs.

(** The catalog on display is valid and so is whatever the tasks left will
    publish. *)
Definition catalog_valid (net : network) (c : loop_state) : Prop :=
  forallb validEntry (streams (fst c)) = true
  /\ Forall (fun t => publishes_valid (trace net t)) (snd c).

(** Two states show the same catalog: the same entries and the same
    error. *)
Definition same_catalog (w1 w2 : world) : Prop :=
  streams w1 = streams w2 /\ error w1 = error w2.

(** The loop is on its way to show the catalog of [target]: each task that
    has not ended leaves it when run to its end from the current state, and
    it is on display if no task is left. *)
Definition settling (net : network) (target : world) (c : loop_state)
  : Prop :=
  (forall t, In t (snd c) -> finished t = false ->
             same_catalog (fst (run net t (fst c))) target)
  /\ (quiescent c = true -> same_catalog (fst c) target).

(** ** Proof automation *)

(** Runs a cycle up to the answer [H] of the source. *)
Ltac start_cycle H :=
  unfold loadStreams, loadStreams_try, failed_cycle, publishing_cycle;
  cbn -[filtered_out_warning]; rewrite H; cbn -[filtered_out_warning].

(** One turn of the loop on a pool of two tasks: resumes the task between
    [before] and [after]. *)
Ltac turn before after :=
  eapply loop_trans;
  [ match goal with
    | |- loop_step ?net (?w, _) _ =>
        eapply (loop_resume net w _ before after); cbn; reflexivity
    end
  | cbn ].

(** One turn of the loop of a mounted page: resumes the task between
    [before] and [after]. *)
Ltac page_turn before after :=
  eapply ui_trans;
  [ apply ui_turn;
    match goal with
    | |- loop_step ?net (?w, _) _ =>
        eapply (loop_resume net w _ before after); cbn; reflexivity
    end
  | cbn ].

Ltac mounted_turn := page_turn (@nil task) (@nil task).

(** * Properties *)

(** ** Running a computation *)

Lemma run_trace {A : Type} (net : network) (m : Async A) (w : world) :
  fst (run net m w) = apply_effects (trace net m) w.
Proof.
  revert w. induction m as [ a | e | ef k IH | o k IH ]; intros w; cbn.
  - reflexivity.
  - reflexivity.
  - apply IH.
  - apply IH.
Qed.

Lemma apply_effects_app (efs1 efs2 : list effect) (w : world) :
  apply_effects (efs1 ++ efs2) w = apply_effects efs2 (apply_effects efs1 w).
Proof. unfold apply_effects. apply fold_left_app. Qed.

Lemma streams_apply_effects (efs : list effect) (w : world) :
  streams (apply_effects efs w) = published efs (streams w).
Proof.
  revert w. induction efs as [ | ef efs IH ]; intros w; [ reflexivity | ].
  cbn. unfold apply_effects in IH. rewrite IH.
  destruct ef; reflexivity.
Qed.

(** The synchronous prefix of a task and what is left of it split the
    effects of the whole task. *)
Lemma run_sync_trace {A : Type} (net : network) (m : Async A) (w : world) :
  exists prefix : list effect,
    fst (run_sync m w) = apply_effects prefix w
    /\ trace net m = (prefix ++ trace net (snd (run_sync m w)))%list.
Proof.
  revert w. induction m as [ a | e | ef k IH | o k IH ]; intros w.
  - exists []. split; reflexivity.
  - exists []. split; reflexivity.
  - destruct (IH (apply_effect ef w)) as (prefix & Hw & Ht).
    exists (ef :: prefix). cbn. split; [ exact Hw | now rewrite Ht ].
  - exists []. split; reflexivity.
Qed.

Lemma run_sync_not_Do {A : Type} (m : Async A) (w : world) :
  forall ef k, snd (run_sync m w) <> Do ef k.
Proof.
  revert w. induction m as [ a | e | ef' k' IH | o k' IH ]; intros w ef k;
    cbn; try discriminate.
  apply IH.
Qed.

Lemma turns_left_run_sync {A : Type} (net : network) (m : Async A) (w : world) :
  turns_left net (snd (run_sync m w)) = turns_left net m.
Proof.
  revert w. induction m as [ a | e | ef k IH | o k IH ]; intros w; cbn;
    try reflexivity.
  apply IH.
Qed.

(** ** The filter callback against the validity invariant *)

Lemma typeof_string_is_text (v : js_value) :
  (typeof v =? "string") = is_text v.
Proof. destruct v as [|[]]; reflexivity. Qed.

Section Validation.

Variable null_read_message : stream_key -> string.

(** On [null] the callback passes the [typeof] test and then raises on the
    read of [title]. *)
Lemma isStream_null :
  isStream null_read_message JNull
  = Throw (JsError (null_read_message Ktitle)).
Proof. reflexivity. Qed.

(** On every other value the callback returns, and decides validity. *)
Lemma isStream_not_null (x : json) :
  is_null x = false -> isStream null_read_message x = Ret (validEntry x).
Proof.
  destruct x as [ | b | n | s | elems | props ]; intros Hx;
    try discriminate; try reflexivity.
  unfold isStream, propIsString, validEntry; cbn.
  rewrite !typeof_string_is_text.
  destruct (is_text (lookup "title" props)); cbn; [ | reflexivity ].
  destruct (is_text (lookup "image" props)); cbn; reflexivity.
Qed.

(** The filter either raises at the first [null] element or keeps exactly
    the valid elements, in order. *)
Lemma filterM_isStream (l : list json) :
  filterM (isStream null_read_message) l
  = if existsb is_null l
    then Throw (JsError (null_read_message Ktitle))
    else Ret (filter validEntry l).
Proof.
  induction l as [ | x rest IH ]; [ reflexivity | ].
  cbn [filterM existsb filter].
  destruct (is_null x) eqn:Hx.
  - destruct x; try discriminate. reflexivity.
  - rewrite (isStream_not_null x Hx). cbn. rewrite IH.
    destruct (existsb is_null rest); cbn; [ reflexivity | ].
    destruct (validEntry x); reflexivity.
Qed.

(** ** The effects of one cycle, by what the source answers *)

Lemma trace_fetch_rejected (net : network) (e : thrown) :
  net "/streams.json" = Rejected e ->
  trace net (loadStreams null_read_message) = failed_cycle e.
Proof. intros H. start_cycle H. reflexivity. Qed.

Lemma trace_not_ok (net : network) (r : response) :
  net "/streams.json" = Fulfilled r -> ok r = false ->
  trace net (loadStreams null_read_message)
  = failed_cycle (JsError "Failed to load streams data").
Proof. intros H Hok. start_cycle H. rewrite Hok. reflexivity. Qed.

Lemma trace_json_rejected (net : network) (r : response) (e : thrown) :
  net "/streams.json" = Fulfilled r -> ok r = true -> body r = Rejected e ->
  trace net (loadStreams null_read_message) = failed_cycle e.
Proof.
  intros H Hok Hbody. start_cycle H. rewrite Hok. cbn. rewrite Hbody.
  reflexivity.
Qed.

Lemma trace_not_array (net : network) (r : response) (data : json) :
  net "/streams.json" = Fulfilled r -> ok r = true ->
  body r = Fulfilled data -> isArray data = false ->
  trace net (loadStreams null_read_message)
  = failed_cycle (JsError "Invalid streams data format").
Proof.
  intros H Hok Hbody Harr. start_cycle H. rewrite Hok. cbn. rewrite Hbody.
  destruct data; try discriminate; reflexivity.
Qed.

Lemma trace_array (net : network) (elems : list json) :
  serves_array net elems ->
  trace net (loadStreams null_read_message)
  = if existsb is_null elems
    then failed_cycle (JsError (null_read_message Ktitle))
    else publishing_cycle (filter validEntry elems) (length elems).
Proof.
  intros H. start_cycle H. rewrite filterM_isStream.
  destruct (existsb is_null elems); [ reflexivity | ].
  cbn -[filtered_out_warning].
  destruct (length (filter validEntry elems) =? length elems)%nat;
    cbn -[filtered_out_warning];
    destruct (length (filter validEntry elems) =? 0)%nat; reflexivity.
Qed.

End Validation.

(** ** The published state after one cycle *)

Section Cycle.

Variable null_read_message : stream_key -> string.
Variable net : network.

Lemma load_trace (w : world) :
  load null_read_message net w
  = apply_effects (trace net (loadStreams null_read_message)) w.
Proof. apply run_trace. Qed.

(** A failure in the fetch or parse steps ends the cycle in the [catch]
    block with the error of that failure. *)
Lemma trace_fetch_or_parse_failure (e : thrown) :
  fetch_or_parse_failure net = Some e ->
  trace net (loadStreams null_read_message) = failed_cycle e.
Proof.
  unfold fetch_or_parse_failure, transport_failure, format_failure.
  destruct (net "/streams.json") as [ r | e' ] eqn:Hnet.
  - destruct (ok r) eqn:Hok.
    + destruct (body r) as [ data | e' ] eqn:Hbody.
      * destruct (isArray data) eqn:Harr; [ discriminate | ].
        intros [= <-]. now apply trace_not_array with r data.
      * intros [= <-]. now apply trace_json_rejected with r.
    + intros [= <-]. now apply trace_not_ok with r.
  - intros [= <-]. now apply trace_fetch_rejected.
Qed.

(** Without such a failure the source served an array. *)
Lemma no_failure_serves_array :
  fetch_or_parse_failure net = None ->
  exists elems, serves_array net elems.
Proof.
  unfold fetch_or_parse_failure, transport_failure, format_failure,
    serves_array.
  destruct (net "/streams.json") as [ [ [ | ] [ data | e' ] ] | e' ];
    cbn; try discriminate.
  destruct data; cbn; try discriminate.
  intros _. now exists elems.
Qed.

Lemma load_failed (w : world) (e : thrown) :
  trace net (loadStreams null_read_message) = failed_cycle e ->
  load null_read_message net w
  = {| streams := streams w; loading := false;
       error := Some (errorMessage e);
       toasts := toasts w ++ [loading_error_toast (errorMessage e)];
       console := console w |}.
Proof. intros H. rewrite load_trace, H. reflexivity. Qed.

Lemma load_published (w : world) (kept : list json) (total : nat) :
  trace net (loadStreams null_read_message) = publishing_cycle kept total ->
  load null_read_message net w
  = {| streams := kept; loading := false;
       error := if (length kept =? 0)%nat
                then Some "No valid streams found" else None;
       toasts := toasts w
                 ++ (if (length kept =? 0)%nat then [no_content_toast] else []);
       console := console w
                  ++ (if (length kept =? total)%nat then []
                      else [filtered_out_warning (total - length kept)]) |}.
Proof.
  intros H. rewrite load_trace, H. unfold publishing_cycle.
  destruct (length kept =? total)%nat, (length kept =? 0)%nat; cbn;
    rewrite ?app_nil_r; reflexivity.
Qed.

(** A cycle over an array without [null] elements publishes the valid
    elements, and the dropped ones only show in a console warning. *)
Lemma load_array_without_null (w : world) (elems : list json) :
  serves_array net elems -> existsb is_null elems = false ->
  load null_read_message net w
  = {| streams := filter validEntry elems; loading := false;
       error := if (length (filter validEntry elems) =? 0)%nat
                then Some "No valid streams found" else None;
       toasts := toasts w
                 ++ (if (length (filter validEntry elems) =? 0)%nat
                     then [no_content_toast] else []);
       console := console w
                  ++ (if (length (filter validEntry elems) =? length elems)%nat
                      then []
                      else [filtered_out_warning
                              (length elems
                               - length (filter validEntry elems))]) |}.
Proof.
  intros Hnet Hnull. apply load_published.
  rewrite (trace_array null_read_message net elems Hnet), Hnull.
  reflexivity.
Qed.

(** A [null] element makes the filter callback raise: the cycle ends in
    the [catch] block and nothing is published. *)
Lemma load_array_with_null (w : world) (elems : list json) :
  serves_array net elems -> existsb is_null elems = true ->
  load null_read_message net w
  = {| streams := streams w; loading := false;
       error := Some (null_read_message Ktitle);
       toasts := toasts w
                 ++ [loading_error_toast (null_read_message Ktitle)];
       console := console w |}.
Proof.
  intros Hnet Hnull.
  apply (load_failed w (JsError (null_read_message Ktitle))).
  rewrite (trace_array null_read_message net elems Hnet), Hnull.
  reflexivity.
Qed.

End Cycle.

Lemma objects_are_not_null (elems : list json) :
  forallb is_object elems = true -> existsb is_null elems = false.
Proof.
  induction elems as [ | x rest IH ]; [ reflexivity | ].
  cbn. intros H. apply andb_true_iff in H as [Hx Hrest].
  rewrite (IH Hrest). destruct x; try discriminate; reflexivity.
Qed.

Lemma length_filter_le {A : Type} (p : A -> bool) (l : list A) :
  length (filter p l) <= length l.
Proof.
  induction l as [ | x rest IH ]; cbn; [ lia | ].
  destruct (p x); cbn; lia.
Qed.

(** ** The concrete scenarios of the spec *)

Example scenarioA :
  load v8_null_read_message (serve (JArray [entryA; entryB])) initial_world
  = {| streams := [entryA]; loading := false; error := None; toasts := [];
       console := ["Filtered out 1 invalid stream entries"] |}.
Proof. reflexivity. Qed.

Example scenarioB :
  load v8_null_read_message (serve (JArray [])) initial_world
  = {| streams := []; loading := false;
       error := Some "No valid streams found";
       toasts := [no_content_toast]; console := [] |}.
Proof. reflexivity. Qed.

(** Scenario C: the request rejects while a catalog is on display. *)
Example scenarioC :
  load v8_null_read_message (fun _ => Rejected NonError) loaded_world
  = {| streams := [entryA]; loading := false;
       error := Some "Failed to load streams";
       toasts := [loading_error_toast "Failed to load streams"];
       console := [] |}.
Proof. reflexivity. Qed.

(** Scenario D: a valid document of the wrong shape. *)
Example scenarioD :
  load v8_null_read_message (serve (JString "not an array")) initial_world
  = {| streams := []; loading := false;
       error := Some "Invalid streams data format";
       toasts := [loading_error_toast "Invalid streams data format"];
       console := [] |}.
Proof. reflexivity. Qed.

(** ** Publishing the valid entries *)

(** C1: for a response that parses to an array of [N] objects of which [K]
    satisfy the validity invariant, [K <= N], the cycle publishes exactly
    the [K] valid entries in their order in the response, and [lastError]
    is set iff [K = 0], in which case it is "No valid streams found". *)
Theorem load_publishes_valid_entries
  (null_read_message : stream_key -> string) (net : network) (w : world)
  (elems : list json) (N K : nat) :
  serves_array net elems ->
  forallb is_object elems = true ->
  length elems = N ->
  length (filter validEntry elems) = K ->
  K <= N
  /\ streams (load null_read_message net w) = filter validEntry elems
  /\ length (streams (load null_read_message net w)) = K
  /\ (error (load null_read_message net w) <> None <-> K = 0)
  /\ (K = 0 ->
      error (load null_read_message net w) = Some "No valid streams found").
Proof.
  intros Hnet Hobj HN HK.
  split; [ subst N K; apply length_filter_le | ].
  rewrite (load_array_without_null null_read_message net w elems Hnet
             (objects_are_not_null elems Hobj)).
  cbn [streams error]. rewrite HK.
  split; [ reflexivity | ].
  split; [ reflexivity | ].
  destruct K as [ | K' ]; cbn.
  - split; [ split; [ reflexivity | discriminate ] | reflexivity ].
  - split; [ split; [ intros H; now elim H | discriminate ] | discriminate ].
Qed.

Lemma load_publishes_valid_entries_witness :
  streams (load v8_null_read_message (serve (JArray [entryA; entryB; entryC]))
             loaded_world) = [entryA; entryC].
Proof.
  apply (load_publishes_valid_entries v8_null_read_message
           (serve (JArray [entryA; entryB; entryC])) loaded_world
           [entryA; entryB; entryC] 3 2); reflexivity.
Defined.

(** C9: a cycle that completes with zero valid entries replaces whatever
    was published before by the empty list and sets [lastError] to
    "No valid streams found". *)
Theorem empty_result_replaces_catalog
  (null_read_message : stream_key -> string) (net : network) (w : world)
  (elems : list json) :
  serves_array net elems ->
  existsb is_null elems = false ->
  filter validEntry elems = [] ->
  streams (load null_read_message net w) = []
  /\ error (load null_read_message net w) = Some "No valid streams found".
Proof.
  intros Hnet Hnull Hnone.
  rewrite (load_array_without_null null_read_message net w elems Hnet Hnull).
  rewrite Hnone. split; reflexivity.
Qed.

Lemma empty_result_replaces_catalog_witness :
  streams loaded_world = [entryA]
  /\ streams (load v8_null_read_message (serve (JArray [entryB; JNumber 7]))
                loaded_world) = []
  /\ error (load v8_null_read_message (serve (JArray [entryB; JNumber 7]))
              loaded_world) = Some "No valid streams found".
Proof.
  split; [ reflexivity | ].
  apply (empty_result_replaces_catalog v8_null_read_message
           (serve (JArray [entryB; JNumber 7])) loaded_world
           [entryB; JNumber 7]); reflexivity.
Defined.

(** C10: validation never transforms entries.  Whatever a cycle hands to
    [setStreams] is the sub-list of the valid elements of the response, so
    each published entry is an element of the response itself, with every
    field it came with. *)
Theorem published_entries_are_response_elements
  (null_read_message : stream_key -> string) (net : network)
  (elems : list json) (kept : list json) :
  serves_array net elems ->
  In (SetStreams kept) (trace net (loadStreams null_read_message)) ->
  kept = filter validEntry elems
  /\ forall entry, In entry kept -> In entry elems.
Proof.
  intros Hnet Hin.
  rewrite (trace_array null_read_message net elems Hnet) in Hin.
  assert (Hkept : kept = filter validEntry elems).
  { destruct (existsb is_null elems).
    - cbn in Hin.
      repeat (destruct Hin as [ Hin | Hin ]; [ discriminate | ]).
      contradiction.
    - unfold publishing_cycle in Hin.
      destruct (length (filter validEntry elems) =? length elems)%nat,
               (length (filter validEntry elems) =? 0)%nat;
        cbn in Hin;
        repeat (destruct Hin as [ Hin | Hin ];
                [ first [ discriminate | now injection Hin ] | ]);
        contradiction. }
  split; [ exact Hkept | ].
  intros entry Hentry. rewrite Hkept in Hentry.
  now apply filter_In in Hentry.
Qed.

Lemma published_entries_are_response_elements_witness :
  [entryC] = filter validEntry [entryB; entryC]
  /\ forall entry, In entry [entryC] -> In entry [entryB; entryC].
Proof.
  apply (published_entries_are_response_elements v8_null_read_message
           (serve (JArray [entryB; entryC])) [entryB; entryC] [entryC]).
  - reflexivity.
  - cbn. right. right. right. left. reflexivity.
Defined.

(** ** Failures of the fetch and parse steps *)

(** C5: on a transport failure (the request rejects, or the response
    status is not OK) the cycle ends with [lastError] set to the message of
    the underlying error -- the message of the rejection, "Failed to load
    streams" when the rejection is not an [Error], and the loader's own
    "Failed to load streams data" for a non-OK status -- a "Loading Error"
    toast is shown with that message, and [isLoading] ends false. *)
Theorem transport_failure_reported
  (null_read_message : stream_key -> string) (net : network) (w : world)
  (e : thrown) :
  transport_failure (net "/streams.json") = Some e ->
  error (load null_read_message net w) = Some (errorMessage e)
  /\ match net "/streams.json" with
     | Rejected (JsError message) =>
         error (load null_read_message net w) = Some message
     | Rejected NonError =>
         error (load null_read_message net w) = Some "Failed to load streams"
     | Fulfilled _ =>
         error (load null_read_message net w)
         = Some "Failed to load streams data"
     end
  /\ toasts (load null_read_message net w)
     = (toasts w ++ [loading_error_toast (errorMessage e)])%list
  /\ loading (load null_read_message net w) = false.
Proof.
  intros Hfail.
  assert (Htrace : trace net (loadStreams null_read_message) = failed_cycle e).
  { apply trace_fetch_or_parse_failure.
    unfold fetch_or_parse_failure. now rewrite Hfail. }
  rewrite (load_failed null_read_message net w e Htrace). cbn.
  split; [ reflexivity | ].
  split; [ | split; reflexivity ].
  unfold transport_failure in Hfail.
  destruct (net "/streams.json") as [ r | [ message | ] ].
  - destruct (ok r); [ discriminate | ].
    now injection Hfail as <-.
  - now injection Hfail as <-.
  - now injection Hfail as <-.
Qed.

Lemma transport_failure_reported_witness :
  error (load v8_null_read_message
           (fun _ => Rejected (JsError "Failed to fetch")) loaded_world)
  = Some "Failed to fetch".
Proof.
  apply (transport_failure_reported v8_null_read_message
           (fun _ => Rejected (JsError "Failed to fetch")) loaded_world
           (JsError "Failed to fetch")).
  reflexivity.
Defined.

(** C6: a cycle that fails in the fetch or parse steps leaves the
    published entries as they were before the cycle. *)
Theorem failed_cycle_keeps_entries
  (null_read_message : stream_key -> string) (net : network) (w : world)
  (e : thrown) :
  fetch_or_parse_failure net = Some e ->
  streams (load null_read_message net w) = streams w.
Proof.
  intros Hfail.
  rewrite (load_failed null_read_message net w e
             (trace_fetch_or_parse_failure null_read_message net e Hfail)).
  reflexivity.
Qed.

Lemma failed_cycle_keeps_entries_witness :
  streams (load v8_null_read_message
             (fun _ => Fulfilled {| ok := false; body := Fulfilled JNull |})
             loaded_world)
  = [entryA].
Proof.
  apply (failed_cycle_keeps_entries v8_null_read_message
           (fun _ => Fulfilled {| ok := false; body := Fulfilled JNull |})
           loaded_world (JsError "Failed to load streams data")).
  reflexivity.
Defined.

(** C4, as the spec states it, fails: when the body of an OK response does
    not parse, [lastError] is the message of the parser's error, not
    "Invalid streams data format". *)
Lemma parse_failure_keeps_parser_message :
  format_failure
    (Fulfilled {| ok := true;
                  body := Rejected (JsError "Unexpected end of JSON input") |})
  = Some (JsError "Unexpected end of JSON input")
  /\ error (load v8_null_read_message
              (fun _ => Fulfilled
                 {| ok := true;
                    body := Rejected
                              (JsError "Unexpected end of JSON input") |})
              initial_world)
     = Some "Unexpected end of JSON input"
  /\ error (load v8_null_read_message
              (fun _ => Fulfilled
                 {| ok := true;
                    body := Rejected
                              (JsError "Unexpected end of JSON input") |})
              initial_world)
     <> Some "Invalid streams data format".
Proof.
  split; [ reflexivity | split; [ reflexivity | discriminate ] ].
Qed.

(** C4, amended: for an OK response whose parsed body is not an array the
    cycle fails with [lastError] "Invalid streams data format"; when the
    body does not parse, the cycle fails as well but [lastError] is the
    message of the parse error ("Failed to load streams" if the rejection
    is not an [Error]).  In both cases a "Loading Error" toast carries the
    same message. *)
Theorem format_failure_reported
  (null_read_message : stream_key -> string) (net : network) (w : world)
  (r : response) :
  net "/streams.json" = Fulfilled r ->
  ok r = true ->
  match body r with
  | Fulfilled data =>
      isArray data = false ->
      error (load null_read_message net w)
      = Some "Invalid streams data format"
      /\ toasts (load null_read_message net w)
         = (toasts w
            ++ [loading_error_toast "Invalid streams data format"])%list
  | Rejected e =>
      error (load null_read_message net w) = Some (errorMessage e)
      /\ toasts (load null_read_message net w)
         = (toasts w ++ [loading_error_toast (errorMessage e)])%list
  end.
Proof.
  intros Hnet Hok.
  destruct (body r) as [ data | e ] eqn:Hbody.
  - intros Harr.
    rewrite (load_failed null_read_message net w
               (JsError "Invalid streams data format")
               (trace_not_array null_read_message net r data
                  Hnet Hok Hbody Harr)).
    split; reflexivity.
  - rewrite (load_failed null_read_message net w e
               (trace_json_rejected null_read_message net r e
                  Hnet Hok Hbody)).
    split; reflexivity.
Qed.

Lemma format_failure_reported_witness :
  error (load v8_null_read_message (serve (JString "not an array"))
           initial_world)
  = Some "Invalid streams data format"
  /\ toasts (load v8_null_read_message (serve (JString "not an array"))
               initial_world)
     = (toasts initial_world
        ++ [loading_error_toast "Invalid streams data format"])%list.
Proof.
  apply (format_failure_reported v8_null_read_message
           (serve (JString "not an array")) initial_world
           {| ok := true; body := Fulfilled (JString "not an array") |}
           eq_refl eq_refl eq_refl).
Defined.

(** ** The loading flag *)

Lemma trace_loadStreams_cases
  (null_read_message : stream_key -> string) (net : network) :
  (exists e, trace net (loadStreams null_read_message) = failed_cycle e)
  \/ (exists kept total,
        trace net (loadStreams null_read_message)
        = publishing_cycle kept total).
Proof.
  destruct (fetch_or_parse_failure net) as [ e | ] eqn:Hfail.
  - left. exists e. now apply trace_fetch_or_parse_failure.
  - destruct (no_failure_serves_array net Hfail) as [ elems Hnet ].
    rewrite (trace_array null_read_message net elems Hnet).
    destruct (existsb is_null elems).
    + left. now eexists.
    + right. now do 2 eexists.
Qed.

(** No exception leaves [loadStreams]: whatever the source answers, the
    cycle runs to its end and returns. *)
Lemma loadStreams_returns
  (null_read_message : stream_key -> string) (net : network) (w : world) :
  snd (run net (loadStreams null_read_message) w) = Normal tt.
Proof.
  unfold loadStreams, loadStreams_try. cbn -[filtered_out_warning].
  destruct (net "/streams.json") as [ r | e ]; cbn; [ | reflexivity ].
  destruct (ok r); cbn; [ | reflexivity ].
  destruct (body r) as [ data | e ]; cbn; [ | reflexivity ].
  destruct data; cbn -[filtered_out_warning]; try reflexivity.
  rewrite filterM_isStream.
  destruct (existsb is_null elems); cbn -[filtered_out_warning];
    [ reflexivity | ].
  destruct (length (filter validEntry elems) =? length elems)%nat;
    cbn -[filtered_out_warning];
    destruct (length (filter validEntry elems) =? 0)%nat; reflexivity.
Qed.

(** C7: a call of [load()] at once sets [isLoading] to true and clears
    [lastError], before it first suspends; and on every path -- success,
    transport failure, format failure, or a raise in between -- the last
    thing the cycle does is to set [isLoading] to false, with no other
    write to the flag in between. *)
Theorem loading_flag_brackets_every_cycle
  (null_read_message : stream_key -> string) :
  (forall w : world, exists k,
      run_sync (loadStreams null_read_message) w
      = ({| streams := streams w; loading := true; error := None;
            toasts := toasts w; console := console w |},
         Await (Fetch "/streams.json") k))
  /\ (forall net : network, exists middle,
        trace net (loadStreams null_read_message)
        = (SetLoading true :: SetError None :: middle
           ++ [SetLoading false])%list
        /\ Forall (fun ef => forall b, ef <> SetLoading b) middle)
  /\ (forall (net : network) (w : world),
        loading (load null_read_message net w) = false
        /\ snd (run net (loadStreams null_read_message) w) = Normal tt).
Proof.
  split; [ | split ].
  - intros w. eexists. reflexivity.
  - intros net.
    destruct (trace_loadStreams_cases null_read_message net)
      as [ [ e -> ] | ( kept & total & -> ) ].
    + exists [ SetError (Some (errorMessage e));
               Toast (loading_error_toast (errorMessage e)) ].
      split; [ reflexivity | repeat constructor; discriminate ].
    + exists ((if (length kept =? total)%nat then []
               else [ ConsoleWarn (filtered_out_warning
                                     (total - length kept)) ])
              ++ [ SetStreams kept ]
              ++ (if (length kept =? 0)%nat
                  then [ SetError (Some "No valid streams found");
                         Toast no_content_toast ]
                  else []))%list.
      unfold publishing_cycle.
      destruct (length kept =? total)%nat, (length kept =? 0)%nat;
        (split; [ reflexivity | repeat constructor; discriminate ]).
  - intros net w. split; [ | apply loadStreams_returns ].
    destruct (trace_loadStreams_cases null_read_message net)
      as [ [ e He ] | ( kept & total & Hk ) ].
    + now rewrite (load_failed null_read_message net w e He).
    + now rewrite (load_published null_read_message net w kept total Hk).
Qed.

(** ** The [null] element *)

(** C3, at an array with a [null] element: [typeof null] is ["object"], so
    the callback reads [null.title] and raises.  The cycle ends in the
    [catch] block -- [lastError] is the [TypeError] message, a "Loading
    Error" toast is shown -- and the valid entry next to the [null] is not
    published. *)
Example null_element_fails_cycle :
  load v8_null_read_message (serve (JArray [entryA; JNull])) initial_world
  = {| streams := []; loading := false;
       error := Some "Cannot read properties of null (reading 'title')";
       toasts := [ loading_error_toast
                     "Cannot read properties of null (reading 'title')" ];
       console := [] |}.
Proof. reflexivity. Qed.

(** Apart from [null], every element that fails the invariant -- a
    non-object, an object with a field missing or not text -- is dropped
    from the result and only counted in the console warning. *)
Lemma invalid_elements_dropped_silently
  (null_read_message : stream_key -> string) (net : network) (w : world)
  (elems : list json) :
  serves_array net elems ->
  existsb is_null elems = false ->
  streams (load null_read_message net w) = filter validEntry elems
  /\ (forall entry,
        In entry (streams (load null_read_message net w))
        <-> In entry elems /\ validEntry entry = true)
  /\ (filter validEntry elems <> [] ->
      error (load null_read_message net w) = None
      /\ toasts (load null_read_message net w) = toasts w).
Proof.
  intros Hnet Hnull.
  rewrite (load_array_without_null null_read_message net w elems Hnet Hnull).
  cbn [streams error toasts].
  split; [ reflexivity | ].
  split; [ intros entry; apply filter_In | ].
  intros Hsome.
  destruct (filter validEntry elems); [ now elim Hsome | ].
  cbn. now rewrite app_nil_r.
Qed.

(** C2, at the same array: after the cycle [lastError] is set, it is not
    "No valid streams found", and no transport or format failure occurred
    whose message it could be; none of the three end states holds. *)
Example null_element_breaks_postcondition :
  ~ state_loaded
      (load v8_null_read_message (serve (JArray [entryA; JNull]))
         initial_world)
  /\ ~ state_nothing_valid
         (load v8_null_read_message (serve (JArray [entryA; JNull]))
            initial_world)
  /\ ~ state_failed (serve (JArray [entryA; JNull]))
         (load v8_null_read_message (serve (JArray [entryA; JNull]))
            initial_world).
Proof.
  split; [ | split ].
  - intros [ _ H ]. vm_compute in H. discriminate H.
  - intros [ _ H ]. vm_compute in H. discriminate H.
  - intros ( e & H & _ ). vm_compute in H. discriminate H.
Qed.

(** When no element of the array is [null], or the cycle fails in the
    fetch or parse steps, one of the three end states holds; the first
    excludes the other two, and the last two meet only when the failure
    itself carries the message "No valid streams found". *)
Lemma postcondition_without_null
  (null_read_message : stream_key -> string) (net : network) (w : world) :
  (forall elems, serves_array net elems -> existsb is_null elems = false) ->
  (state_loaded (load null_read_message net w)
   \/ state_nothing_valid (load null_read_message net w)
   \/ state_failed net (load null_read_message net w))
  /\ ~ (state_loaded (load null_read_message net w)
        /\ state_nothing_valid (load null_read_message net w))
  /\ ~ (state_loaded (load null_read_message net w)
        /\ state_failed net (load null_read_message net w))
  /\ (state_nothing_valid (load null_read_message net w)
      /\ state_failed net (load null_read_message net w) ->
      exists e, fetch_or_parse_failure net = Some e
                /\ errorMessage e = "No valid streams found").
Proof.
  intros Hnonull.
  split; [ | split; [ | split ] ].
  - destruct (fetch_or_parse_failure net) as [ e | ] eqn:Hfail.
    + right. right. exists e. split; [ exact Hfail | ].
      now rewrite (load_failed null_read_message net w e
                     (trace_fetch_or_parse_failure null_read_message net e
                        Hfail)).
    + destruct (no_failure_serves_array net Hfail) as [ elems Hnet ].
      rewrite (load_array_without_null null_read_message net w elems Hnet
                 (Hnonull elems Hnet)).
      unfold state_loaded, state_nothing_valid. cbn [streams error].
      destruct (filter validEntry elems) as [ | x kept ]; cbn.
      * right. left. split; reflexivity.
      * left. split; [ discriminate | reflexivity ].
  - intros [ [ Hne _ ] [ He _ ] ]. now elim Hne.
  - intros [ [ _ Hnone ] ( e & _ & Hsome ) ].
    rewrite Hnone in Hsome. discriminate Hsome.
  - intros [ [ _ Hmsg ] ( e & Hfail & He ) ].
    exists e. split; [ exact Hfail | ].
    rewrite Hmsg in He. now injection He.
Qed.

(** ** Overlapping cycles on the event loop *)

Lemma published_app (efs1 efs2 : list effect) (before : list json) :
  published (efs1 ++ efs2) before = published efs2 (published efs1 before).
Proof. unfold published. apply fold_left_app. Qed.

Lemma only_publishes_published (target : list json) (efs : list effect)
  (before : list json) :
  only_publishes target efs ->
  published efs before
  = if existsb is_SetStreams efs then target else before.
Proof.
  intros H. revert before.
  induction H as [ | ef efs Hef Hefs IH ]; intros before; [ reflexivity | ].
  cbn [published fold_left existsb]. fold (published efs).
  rewrite IH. destruct ef; cbn; try reflexivity.
  rewrite (Hef l eq_refl). now destruct (existsb is_SetStreams efs).
Qed.

(** Each cycle publishes at most one value, the one its state ends with. *)
Lemma loadStreams_only_publishes
  (null_read_message : stream_key -> string) (net : network)
  (before : list json) :
  only_publishes
    (published (trace net (loadStreams null_read_message)) before)
    (trace net (loadStreams null_read_message)).
Proof.
  destruct (trace_loadStreams_cases null_read_message net)
    as [ [ e -> ] | ( kept & total & -> ) ].
  - repeat constructor; discriminate.
  - unfold publishing_cycle.
    destruct (length kept =? total)%nat, (length kept =? 0)%nat; cbn;
      repeat constructor; intros l H; try discriminate H;
      now injection H as <-.
Qed.

(** Resuming a task keeps the loop on its way. *)
Lemma resume_converging (net : network) (target : list json) (m : task)
  (w : world) :
  only_publishes target (trace net m) ->
  only_publishes target (trace net (snd (run_sync m w)))
  /\ (streams w = target -> streams (fst (run_sync m w)) = target)
  /\ (existsb is_SetStreams (trace net m) = true ->
      streams (fst (run_sync m w)) = target
      \/ existsb is_SetStreams (trace net (snd (run_sync m w))) = true).
Proof.
  intros Honly.
  destruct (run_sync_trace net m w) as (prefix & Hw & Ht).
  rewrite Ht in Honly. apply Forall_app in Honly as [ Hprefix Hrest ].
  rewrite Hw, streams_apply_effects,
    (only_publishes_published target prefix (streams w) Hprefix).
  split; [ exact Hrest | split ].
  - intros ->. now destruct (existsb is_SetStreams prefix).
  - rewrite Ht, existsb_app.
    destruct (existsb is_SetStreams prefix); cbn; [ now left | now right ].
Qed.

Lemma converging_spawn (net : network) (target : list json) (t : task)
  (w : world) (pool : list task) :
  only_publishes target (trace net t) ->
  Forall (fun t' => only_publishes target (trace net t')) pool ->
  (streams w = target
   \/ Exists (fun t' => existsb is_SetStreams (trace net t') = true) pool
   \/ existsb is_SetStreams (trace net t) = true) ->
  converging net target (spawn t (w, pool)).
Proof.
  intros Ht Hpool Hdue.
  destruct (resume_converging net target t w Ht) as (Hrest & Hkeep & Hset).
  unfold converging, spawn. cbn [fst snd].
  destruct (run_sync t w) as [ w' t' ]. cbn [fst snd] in *.
  split.
  - apply Forall_app. split; [ exact Hpool | now constructor ].
  - destruct Hdue as [ Hw | [ Hex | Hnew ] ].
    + left. now apply Hkeep.
    + right. apply Exists_app. now left.
    + destruct (Hset Hnew) as [ Hw' | Ht' ]; [ now left | ].
      right. apply Exists_app. right. now constructor.
Qed.

Lemma converging_step (net : network) (target : list json)
  (c c' : loop_state) :
  converging net target c -> loop_step net c c' -> converging net target c'.
Proof.
  intros [ Honly Hdue ] Hstep.
  destruct Hstep as [ w w' before after o k t' Hrun ].
  cbn [fst snd] in *.
  apply Forall_app in Honly as [ Hbefore Hrest ].
  apply Forall_cons_iff in Hrest as [ Ht Hafter ]. cbn [trace] in Ht.
  destruct (resume_converging net target (k (settle net o)) w Ht)
    as (Hrest & Hkeep & Hset).
  rewrite Hrun in Hrest, Hkeep, Hset. cbn [fst snd] in *.
  split; cbn [fst snd].
  - apply Forall_app. split; [ exact Hbefore | now constructor ].
  - destruct Hdue as [ Hw | Hex ]; [ left; now apply Hkeep | ].
    apply Exists_app in Hex as [ Hex | Hex ].
    + right. apply Exists_app. now left.
    + apply Exists_cons in Hex as [ Hnow | Hex ].
      * destruct (Hset Hnow) as [ Hw' | Ht' ]; [ now left | ].
        right. apply Exists_app. right. now apply Exists_cons_hd.
      * right. apply Exists_app. right. now apply Exists_cons_tl.
Qed.

Lemma converging_steps (net : network) (target : list json)
  (c c' : loop_state) :
  loop_steps net c c' -> converging net target c -> converging net target c'.
Proof.
  induction 1 as [ c | c1 c2 c3 Hstep _ IH ]; intros Hc; [ exact Hc | ].
  apply IH. now apply converging_step with c1.
Qed.

Lemma finished_trace (net : network) (t : task) :
  finished t = true -> trace net t = [].
Proof. destruct t; cbn; try discriminate; reflexivity. Qed.

Lemma converging_quiescent (net : network) (target : list json)
  (c : loop_state) :
  converging net target c -> quiescent c = true -> streams (fst c) = target.
Proof.
  intros [ _ [ Hw | Hex ] ] Hq; [ exact Hw | ].
  unfold quiescent in Hq. rewrite forallb_forall in Hq.
  apply Exists_exists in Hex as ( t & Hin & Hset ).
  rewrite (finished_trace net t (Hq t Hin)) in Hset. discriminate Hset.
Qed.

(** Every task the loop holds is suspended or ended. *)
Lemma parked_run_sync (m : task) (w : world) :
  parked (snd (run_sync m w)) = true.
Proof.
  pose proof (run_sync_not_Do m w) as H.
  destruct (snd (run_sync m w)) as [ a | e | ef k | o k ]; try reflexivity.
  now elim (H ef k).
Qed.

Lemma parked_spawn (t : task) (w : world) (pool : list task) :
  forallb parked pool = true ->
  forallb parked (snd (spawn t (w, pool))) = true.
Proof.
  intros Hpool. unfold spawn. cbn [fst snd].
  pose proof (parked_run_sync t w) as Ht.
  destruct (run_sync t w) as [ w' t' ]. cbn [fst snd] in *.
  rewrite forallb_app, Hpool. cbn. now rewrite Ht.
Qed.

Lemma parked_step (net : network) (c c' : loop_state) :
  loop_step net c c' ->
  forallb parked (snd c) = true -> forallb parked (snd c') = true.
Proof.
  intros [ w w' before after o k t' Hrun ]. cbn [snd].
  rewrite !forallb_app. cbn [forallb parked].
  pose proof (parked_run_sync (k (settle net o)) w) as Ht.
  rewrite Hrun in Ht. cbn [snd] in Ht. now rewrite Ht.
Qed.

Lemma parked_steps (net : network) (c c' : loop_state) :
  loop_steps net c c' ->
  forallb parked (snd c) = true -> forallb parked (snd c') = true.
Proof.
  induction 1 as [ c | c1 c2 c3 Hstep _ IH ]; intros Hc; [ exact Hc | ].
  apply IH. now apply parked_step with net c1.
Qed.

(** While a task is left to resume, the loop can take a turn. *)
Lemma loop_progress (net : network) (c : loop_state) :
  forallb parked (snd c) = true -> quiescent c = false ->
  exists c', loop_step net c c'.
Proof.
  destruct c as [ w pool ]. unfold quiescent. cbn [snd].
  induction pool as [ | t rest IH ]; [ discriminate | ].
  cbn [forallb]. intros Hparked Hq.
  apply andb_true_iff in Hparked as [ Ht Hrest ].
  destruct (finished t) eqn:Hfin.
  - destruct (IH Hrest Hq) as [ c' Hstep ].
    inversion Hstep as [ w0 w' before after o k t' Hrun Hw Hc' ].
    subst w0 rest.
    exists (w', (t :: before) ++ t' :: after)%list.
    exact (loop_resume net w w' (t :: before) after o k t' Hrun).
  - destruct t as [ a | e | ef k | o k ]; try discriminate.
    destruct (run_sync (k (settle net o)) w) as [ w' t' ] eqn:Hrun.
    exists (w', [] ++ t' :: rest)%list.
    now apply (loop_resume net w w' [] rest o k t').
Qed.

(** Every turn uses up one suspension of the resumed task. *)
Lemma loop_step_decreases (net : network) (c c' : loop_state) :
  loop_step net c c' ->
  pool_turns net (snd c') < pool_turns net (snd c).
Proof.
  intros [ w w' before after o k t' Hrun ]. cbn [snd].
  unfold pool_turns. rewrite !map_app, !list_sum_app. cbn.
  pose proof (turns_left_run_sync net (k (settle net o)) w) as Ht.
  rewrite Hrun in Ht. cbn [snd] in Ht. lia.
Qed.

(** C8: [refreshStreams()] shows the "Refreshing..." toast and then runs
    [loadStreams()].  After two calls in immediate succession against a
    stable source, the two cycles overlap on the event loop; however their
    turns are ordered, the loop keeps taking turns until both have ended,
    each turn bringing it closer to the end, and the entries published
    then are those a single [loadStreams()] publishes. *)
Theorem refresh_twice_converges
  (null_read_message : stream_key -> string) (net : network) (w : world) :
  trace net (refreshStreams null_read_message)
  = Toast refreshing_toast :: trace net (loadStreams null_read_message)
  /\ fst (run net (refreshStreams null_read_message) w)
     = load null_read_message net (apply_effect (Toast refreshing_toast) w)
  /\ forall c : loop_state,
       loop_steps net (refresh_twice null_read_message w) c ->
       (quiescent c = true ->
        streams (fst c) = streams (load null_read_message net w))
       /\ (quiescent c = false -> exists c', loop_step net c c')
       /\ (forall c', loop_step net c c' ->
           pool_turns net (snd c') < pool_turns net (snd c)).
Proof.
  split; [ reflexivity | split; [ reflexivity | ] ].
  intros c Hsteps.
  split; [ | split ].
  - apply converging_quiescent with net.
    apply (converging_steps net _ _ c Hsteps).
    rewrite load_trace, streams_apply_effects.
    pose proof (loadStreams_only_publishes null_read_message net (streams w))
      as Honly.
    set (target := published (trace net (loadStreams null_read_message))
                     (streams w)) in *.
    assert (Hrefresh :
      only_publishes target (trace net (refreshStreams null_read_message))).
    { constructor; [ discriminate | exact Honly ]. }
    unfold refresh_twice.
    pose proof (converging_spawn net target
                  (refreshStreams null_read_message) w []
                  Hrefresh (Forall_nil _)) as Hfirst.
    destruct (existsb is_SetStreams
                (trace net (refreshStreams null_read_message))) eqn:Hset.
    + specialize (Hfirst (or_intror (or_intror eq_refl))).
      destruct (spawn (refreshStreams null_read_message) (w, []))
        as [ w1 pool1 ].
      destruct Hfirst as [ Hpool1 Hdue1 ]. cbn [fst snd] in *.
      apply converging_spawn; [ exact Hrefresh | exact Hpool1 | ].
      destruct Hdue1 as [ Hw1 | Hex1 ]; [ now left | right; now left ].
    + assert (Hw : streams w = target).
      { unfold target.
        rewrite (only_publishes_published _ _ (streams w) Honly).
        change (trace net (refreshStreams null_read_message))
          with (Toast refreshing_toast
                :: trace net (loadStreams null_read_message)) in Hset.
        cbn [existsb is_SetStreams orb] in Hset. now rewrite Hset. }
      specialize (Hfirst (or_introl Hw)).
      destruct (spawn (refreshStreams null_read_message) (w, []))
        as [ w1 pool1 ].
      destruct Hfirst as [ Hpool1 Hdue1 ]. cbn [fst snd] in *.
      apply converging_spawn; [ exact Hrefresh | exact Hpool1 | ].
      destruct Hdue1 as [ Hw1 | Hex1 ]; [ now left | right; now left ].
  - apply loop_progress.
    apply (parked_steps net _ c Hsteps).
    unfold refresh_twice.
    pose proof (parked_spawn (refreshStreams null_read_message) w []
                  eq_refl) as Hfirst.
    destruct (spawn (refreshStreams null_read_message) (w, []))
      as [ w1 pool1 ]. cbn [snd] in Hfirst.
    now apply parked_spawn.
  - intros c'. apply loop_step_decreases.
Qed.

(** One of the orders in which two overlapping refreshes of scenario A can
    run: the second cycle overtakes the first one after both requests are
    answered. *)
Example refresh_twice_interleaved :
  exists c : loop_state,
    loop_steps (serve (JArray [entryA; entryB]))
      (refresh_twice v8_null_read_message initial_world) c
    /\ quiescent c = true
    /\ fst c
       = {| streams := [entryA]; loading := false; error := None;
            toasts := [refreshing_toast; refreshing_toast];
            console := ["Filtered out 1 invalid stream entries";
                        "Filtered out 1 invalid stream entries"] |}.
Proof.
  eexists. split; [ | split ].
  - unfold refresh_twice, spawn. cbn.
    match goal with |- loop_steps _ (_, [?a; ?b]) _ => turn (@nil task) [b] end.
    match goal with |- loop_steps _ (_, [?a; ?b]) _ => turn [a] (@nil task) end.
    match goal with |- loop_steps _ (_, [?a; ?b]) _ => turn [a] (@nil task) end.
    match goal with |- loop_steps _ (_, [?a; ?b]) _ => turn (@nil task) [b] end.
    apply loop_refl.
  - reflexivity.
  - reflexivity.
Qed.

(** * The page over the hook *)

(** ** What the page shows *)

(** X1: whatever the hook returns, the page shows exactly one of its four
    regions: the skeletons while loading; otherwise the error panel if
    [error] is a non-empty string; otherwise the grid, or the empty state
    when there is no stream. *)
Theorem Index_shows_one_region
  (streams : list json) (loading : bool) (error : option string)
  (selectedStream : option json) :
  regions (Index streams loading error selectedStream)
  = [ if loading then Skeletons 12
      else if truthy error then ErrorPanel (error_text error)
      else match streams with
           | [] => EmptyState
           | _ :: _ => Grid streams
           end ].
Proof.
  unfold Index. cbn [regions].
  destruct loading, (truthy error), streams; reflexivity.
Qed.

(** X2: a refresh button can be clicked exactly when [loading] is false:
    while a cycle runs the header's button is disabled and the two other
    buttons are not rendered; and after every load cycle, whatever the
    source answered, the page offers a way to retry. *)
Theorem refresh_offered_iff_not_loading
  (null_read_message : stream_key -> string) :
  (forall (w : world) (selectedStream : option json),
      can_refresh (page_of w selectedStream) = negb (loading w))
  /\ (forall (net : network) (w : world) (selectedStream : option json),
        can_refresh (page_of (load null_read_message net w) selectedStream)
        = true).
Proof.
  assert (Hpage : forall w selectedStream,
             can_refresh (page_of w selectedStream) = negb (loading w)).
  { intros w selectedStream.
    unfold can_refresh, refresh_buttons, page_of, Index.
    destruct (loading w), (truthy (error w)), (streams w); reflexivity. }
  split; [ exact Hpage | ].
  intros net w selectedStream. rewrite Hpage.
  destruct (trace_loadStreams_cases null_read_message net)
    as [ [ e He ] | ( kept & total & Hk ) ].
  - now rewrite (load_failed null_read_message net w e He).
  - now rewrite (load_published null_read_message net w kept total Hk).
Qed.

Lemma regions_page_of (w : world) (selectedStream : option json) :
  regions (page_of w selectedStream)
  = [ if loading w then Skeletons 12
      else if truthy (error w) then ErrorPanel (error_text (error w))
      else match streams w with
           | [] => EmptyState
           | _ :: _ => Grid (streams w)
           end ].
Proof.
  unfold page_of, Index. cbn [regions].
  destruct (loading w), (truthy (error w)), (streams w); reflexivity.
Qed.

(** X3: after a cycle over an array without [null] elements the page
    shows the grid of the valid entries, in the order of the response, or,
    when no entry is valid, the error panel with "No valid streams found";
    the "No Movies Found" empty state is not what such a cycle ends in. *)
Theorem page_after_publishing_cycle
  (null_read_message : stream_key -> string) (net : network) (w : world)
  (elems : list json) (selectedStream : option json) :
  serves_array net elems ->
  existsb is_null elems = false ->
  regions (page_of (load null_read_message net w) selectedStream)
  = [ match filter validEntry elems with
      | [] => ErrorPanel "No valid streams found"
      | _ :: _ => Grid (filter validEntry elems)
      end ].
Proof.
  intros Hnet Hnull. rewrite regions_page_of.
  rewrite (load_array_without_null null_read_message net w elems Hnet Hnull).
  cbn [loading error streams].
  destruct (filter validEntry elems); reflexivity.
Qed.

Lemma page_after_publishing_cycle_witness :
  regions (page_of (load v8_null_read_message
                      (serve (JArray [entryB; entryC; JNumber 3]))
                      initial_world) None)
  = [ Grid [entryC] ].
Proof.
  apply (page_after_publishing_cycle v8_null_read_message
           (serve (JArray [entryB; entryC; JNumber 3])) initial_world
           [entryB; entryC; JNumber 3] None); reflexivity.
Defined.

(** X4: after a cycle that fails in the fetch or parse steps the page
    shows the error panel with the message of the failure and nothing else:
    the catalog published before is kept in the state but is not on
    display.  Only when the message is the empty string does the page treat
    the state as free of error and show that catalog, or the empty
    state. *)
Theorem page_after_failed_cycle
  (null_read_message : stream_key -> string) (net : network) (w : world)
  (e : thrown) (selectedStream : option json) :
  fetch_or_parse_failure net = Some e ->
  streams (load null_read_message net w) = streams w
  /\ regions (page_of (load null_read_message net w) selectedStream)
     = [ if errorMessage e =? ""
         then match streams w with
              | [] => EmptyState
              | _ :: _ => Grid (streams w)
              end
         else ErrorPanel (errorMessage e) ].
Proof.
  intros Hfail. rewrite regions_page_of.
  rewrite (load_failed null_read_message net w e
             (trace_fetch_or_parse_failure null_read_message net e Hfail)).
  cbn [loading error streams truthy error_text].
  split; [ reflexivity | ].
  destruct (errorMessage e =? ""); reflexivity.
Qed.

Lemma page_after_failed_cycle_witness :
  streams (load v8_null_read_message
             (fun _ => Fulfilled {| ok := false; body := Fulfilled JNull |})
             loaded_world) = [entryA]
  /\ regions (page_of
                (load v8_null_read_message
                   (fun _ => Fulfilled {| ok := false;
                                          body := Fulfilled JNull |})
                   loaded_world) None)
     = [ ErrorPanel "Failed to load streams data" ].
Proof.
  apply (page_after_failed_cycle v8_null_read_message
           (fun _ => Fulfilled {| ok := false; body := Fulfilled JNull |})
           loaded_world (JsError "Failed to load streams data") None).
  reflexivity.
Defined.

(** ** Toasts, warnings and repeated loads *)

(** X5: a cycle shows a toast exactly when it ends with [error] set, and
    then exactly one, of the destructive variant: no toast and no error, or
    one toast and an error. *)
Theorem toast_iff_error
  (null_read_message : stream_key -> string) (net : network) (w : world) :
  (error (load null_read_message net w) = None
   /\ toasts (load null_read_message net w) = toasts w)
  \/ (exists message t,
        error (load null_read_message net w) = Some message
        /\ toasts (load null_read_message net w) = (toasts w ++ [t])%list
        /\ toast_variant t = Some "destructive").
Proof.
  destruct (trace_loadStreams_cases null_read_message net)
    as [ [ e He ] | ( kept & total & Hk ) ].
  - right. rewrite (load_failed null_read_message net w e He).
    now do 2 eexists.
  - rewrite (load_published null_read_message net w kept total Hk).
    cbn [error toasts].
    destruct (length kept =? 0)%nat.
    + right. now do 2 eexists.
    + left. now rewrite app_nil_r.
Qed.

Lemma valid_entries_are_not_null (elems : list json) :
  forallb validEntry elems = true -> existsb is_null elems = false.
Proof.
  induction elems as [ | x rest IH ]; [ reflexivity | ].
  cbn. intros H. apply andb_true_iff in H as [ Hx Hrest ].
  rewrite (IH Hrest). destruct x; try discriminate; reflexivity.
Qed.

Lemma filter_all {A : Type} (p : A -> bool) (l : list A) :
  forallb p l = true -> filter p l = l.
Proof.
  induction l as [ | x rest IH ]; [ reflexivity | ].
  cbn. intros H. apply andb_true_iff in H as [ Hx Hrest ].
  now rewrite Hx, (IH Hrest).
Qed.

(** X6: when every element of the response is a valid entry, the response
    is published as it is and nothing is written to the console. *)
Theorem all_valid_response_published_as_is
  (null_read_message : stream_key -> string) (net : network) (w : world)
  (elems : list json) :
  serves_array net elems ->
  forallb validEntry elems = true ->
  streams (load null_read_message net w) = elems
  /\ console (load null_read_message net w) = console w.
Proof.
  intros Hnet Hvalid.
  rewrite (load_array_without_null null_read_message net w elems Hnet
             (valid_entries_are_not_null elems Hvalid)).
  cbn [streams console]. rewrite (filter_all validEntry elems Hvalid).
  rewrite Nat.eqb_refl. split; [ reflexivity | apply app_nil_r ].
Qed.

Lemma all_valid_response_published_as_is_witness :
  streams (load v8_null_read_message (serve (JArray [entryC; entryA]))
             loaded_world) = [entryC; entryA]
  /\ console (load v8_null_read_message (serve (JArray [entryC; entryA]))
                loaded_world) = console loaded_world.
Proof.
  apply (all_valid_response_published_as_is v8_null_read_message
           (serve (JArray [entryC; entryA])) loaded_world
           [entryC; entryA]); reflexivity.
Defined.


(** ** The type guard *)

Lemma validEntry_as_stream (x : json) :
  validEntry x = true <-> exists s, as_stream x = Some s.
Proof.
  destruct x as [ | b | n | s0 | elems | props ]; cbn;
    try (split; [ discriminate | intros [ s H ]; discriminate H ]).
  destruct (lookup "title" props) as [ | [ | | | t | | ] ];
    destruct (lookup "image" props) as [ | [ | | | i | | ] ];
    destruct (lookup "stream" props) as [ | [ | | | s0 | | ] ]; cbn;
    try (split; [ discriminate | intros [ s H ]; discriminate H ]).
  split; [ intros _; now eexists | reflexivity ].
Qed.

(** X8: the filter callback is the type guard it is declared to be: it
    returns true exactly on the values that are a [Stream], an object
    whose [title], [image] and [stream] are strings; and it returns false,
    without raising, on every other value except [null]. *)
Theorem isStream_is_a_type_guard
  (null_read_message : stream_key -> string) (x : json) :
  (isStream null_read_message x = Ret true
   <-> exists s, as_stream x = Some s)
  /\ (is_null x = false ->
      as_stream x = None ->
      isStream null_read_message x = Ret false).
Proof.
  destruct (is_null x) eqn:Hnull.
  - destruct x; try discriminate. cbn.
    split; [ | discriminate ].
    split; [ discriminate | intros [ s H ]; discriminate H ].
  - rewrite (isStream_not_null null_read_message x Hnull).
    pose proof (validEntry_as_stream x) as Hiff.
    split.
    + split.
      * intros [= H]. now apply Hiff.
      * intros H. apply Hiff in H. now rewrite H.
    + intros _ Hnone. destruct (validEntry x); [ | reflexivity ].
      destruct (proj1 Hiff eq_refl) as [ s Hs ].
      rewrite Hs in Hnone. discriminate Hnone.
Qed.

Lemma isStream_is_a_type_guard_witness :
  isStream v8_null_read_message (JArray [JString "x"]) = Ret false.
Proof.
  apply (isStream_is_a_type_guard v8_null_read_message
           (JArray [JString "x"])); reflexivity.
Defined.

Lemma lookup_other (key other : string) (v : json)
  (props : list (string * json)) :
  (other =? key) = false ->
  lookup key ((other, v) :: props) = lookup key props.
Proof. intros H. cbn. now rewrite H. Qed.

(** X9: the callback looks at [title], [image] and [stream] only: a
    property under any other name, whatever its value, does not change
    its answer. *)
Theorem isStream_ignores_other_properties
  (null_read_message : stream_key -> string) (other : string) (v : json)
  (props : list (string * json)) :
  other <> "title" -> other <> "image" -> other <> "stream" ->
  isStream null_read_message (JObject ((other, v) :: props))
  = isStream null_read_message (JObject props).
Proof.
  intros Ht Hi Hs.
  rewrite !isStream_not_null by reflexivity.
  unfold validEntry.
  rewrite !lookup_other by (now apply String.eqb_neq).
  reflexivity.
Qed.

Lemma isStream_ignores_other_properties_witness :
  isStream v8_null_read_message
    (JObject [("year", JNumber 1999); ("title", JString "C")])
  = isStream v8_null_read_message (JObject [("title", JString "C")]).
Proof.
  apply (isStream_ignores_other_properties v8_null_read_message
           "year" (JNumber 1999) [("title", JString "C")]); discriminate.
Defined.

(** ** The keys of the cards *)

Lemma no_dash_app_dash (a b : string) :
  no_dash (a ++ String "-" b) = false.
Proof.
  induction a as [ | c a IH ]; [ reflexivity | ].
  cbn [append no_dash]. rewrite IH. apply andb_false_r.
Qed.

Lemma no_dash_string_of_uint (d : Decimal.uint) :
  no_dash (NilEmpty.string_of_uint d) = true.
Proof. induction d; cbn; now try rewrite IHd. Qed.

(** A text followed by a dash and a number has one reading. *)
Lemma dash_suffix_inj (t1 t2 d1 d2 : string) :
  no_dash d1 = true -> no_dash d2 = true ->
  t1 ++ String "-" d1 = t2 ++ String "-" d2 -> t1 = t2 /\ d1 = d2.
Proof.
  intros H1 H2. revert t2.
  induction t1 as [ | c t1 IH ]; intros [ | c' t2 ]; cbn [append];
    intros Heq.
  - injection Heq as ->. now split.
  - injection Heq as _ ->. now rewrite no_dash_app_dash in H1.
  - injection Heq as _ <-. now rewrite no_dash_app_dash in H2.
  - injection Heq as -> Heq. destruct (IH t2 Heq) as [ -> -> ]. now split.
Qed.

Lemma card_key_inj (s s' : Stream) (i j : nat) :
  card_key s i = card_key s' j -> title s = title s' /\ i = j.
Proof.
  unfold card_key, string_of_nat. intros Heq.
  change (title s ++ String "-" (NilEmpty.string_of_uint (Nat.to_uint i))
          = title s' ++ String "-" (NilEmpty.string_of_uint (Nat.to_uint j)))
    in Heq.
  apply dash_suffix_inj in Heq as [ Ht Hd ];
    try apply no_dash_string_of_uint.
  split; [ exact Ht | ].
  apply Unsigned.to_uint_inj.
  pose proof (NilEmpty.usu (Nat.to_uint i)) as Hi.
  pose proof (NilEmpty.usu (Nat.to_uint j)) as Hj.
  rewrite Hd, Hj in Hi. now injection Hi.
Qed.

Lemma keys_from_index (index : nat) (ss : list Stream) (key : string) :
  In key (keys_from index ss) ->
  exists s j, index <= j /\ key = card_key s j.
Proof.
  revert index. induction ss as [ | s rest IH ]; intros index; cbn.
  - contradiction.
  - intros [ <- | Hin ].
    + exists s, index. split; [ lia | reflexivity ].
    + destruct (IH (S index) Hin) as ( s' & j & Hle & Hkey ).
      exists s', j. split; [ lia | exact Hkey ].
Qed.

(** X10: the keys React gets for the cards of the grid are pairwise
    distinct, also when streams share a title or a title ends in a dash and
    digits. *)
Theorem grid_keys_distinct (ss : list Stream) : NoDup (grid_keys ss).
Proof.
  unfold grid_keys. generalize 0.
  induction ss as [ | s rest IH ]; intros index; cbn; constructor.
  - intros Hin.
    destruct (keys_from_index (S index) rest _ Hin) as ( s' & j & Hle & Hkey ).
    apply card_key_inj in Hkey as [ _ Hij ]. lia.
  - apply IH.
Qed.

(** * The mounted page on the event loop *)

(** ** A cycle on its own *)

Lemma run_run_sync {A : Type} (net : network) (m : Async A) (w : world) :
  run net (snd (run_sync m w)) (fst (run_sync m w)) = run net m w.
Proof.
  revert w. induction m as [ a | e | ef k IH | o k IH ]; intros w; cbn;
    try reflexivity.
  apply IH.
Qed.



Lemma loop_steps_snoc (net : network) (c1 c2 c3 : loop_state) :
  loop_steps net c1 c2 -> loop_step net c2 c3 -> loop_steps net c1 c3.
Proof.
  induction 1 as [ c | c1 c2 c2' Hstep _ IH ]; intros Hlast.
  - apply loop_trans with c3; [ exact Hlast | apply loop_refl ].
  - apply loop_trans with c2; [ exact Hstep | now apply IH ].
Qed.



(** ** One cycle at a time *)

Lemma quiet_abind {A B : Type} (m : Async A) (f : A -> Async B) :
  quiet m -> (forall a, quiet (f a)) -> quiet (abind m f).
Proof.
  intros Hm Hf.
  induction m as [ a | e | ef k IH | o k IH ]; cbn in *.
  - apply Hf.
  - exact I.
  - destruct Hm as [ Hef Hk ]. split; [ exact Hef | now apply IH ].
  - intros s. now apply IH.
Qed.

Lemma quiet_acatch {A : Type} (m : Async A) (h : thrown -> Async A) :
  quiet m -> (forall e, quiet (h e)) -> quiet (acatch m h).
Proof.
  intros Hm Hh.
  induction m as [ a | e | ef k IH | o k IH ]; cbn in *.
  - exact I.
  - apply Hh.
  - destruct Hm as [ Hef Hk ]. split; [ exact Hef | now apply IH ].
  - intros s. now apply IH.
Qed.

(** The [finally] block of [loadStreams] is the last thing to run. *)
Lemma finally_resetting (m : task) :
  quiet m -> resetting (finally m (setLoading false)).
Proof.
  induction m as [ a | e | ef k IH | o k IH ]; cbn; intros Hm.
  - now split.
  - now split.
  - destruct Hm as [ Hef Hk ].
    destruct ef; try discriminate Hef; now apply IH.
  - intros s. now apply IH.
Qed.

(** Between the two writes to the flag, the [try] and [catch] blocks do
    not touch it, whatever the source answers. *)
Lemma loadStreams_body_quiet
  (null_read_message : stream_key -> string) (s : settled response) :
  quiet
    (acatch
       (response <- match s with
                    | Fulfilled r => Ret r
                    | Rejected e => Throw e
                    end ;;
        when (negb (ok response))
          (raise (JsError "Failed to load streams data")) ;;
        data <- await (ResponseJson response) ;;
        match data with
        | JArray elems =>
            validStreams <- filterM (isStream null_read_message) elems ;;
            when (negb (length validStreams =? length elems)%nat)
              (console_warn
                 (filtered_out_warning
                    (length elems - length validStreams))) ;;
            setStreams validStreams ;;
            when (length validStreams =? 0)%nat
              (setError (Some "No valid streams found") ;;
               toast no_content_toast)
        | _ => raise (JsError "Invalid streams data format")
        end)
       (loadStreams_catch)).
Proof.
  apply quiet_acatch; [ | intros e; cbn; auto ].
  apply quiet_abind; [ destruct s; exact I | intros response ].
  apply quiet_abind; [ destruct (ok response); exact I | intros _ ].
  cbn [await bind Monad_Async abind quiet]. intros s'.
  apply quiet_abind; [ destruct s'; exact I | intros data ].
  destruct data; try exact I.
  apply quiet_abind.
  { rewrite filterM_isStream. destruct (existsb is_null elems); exact I. }
  intros validStreams.
  apply quiet_abind.
  { destruct (negb (length validStreams =? length elems)%nat); cbn; auto. }
  intros _.
  apply quiet_abind; [ cbn; auto | intros _ ].
  destruct (length validStreams =? 0)%nat; cbn; auto.
Qed.

(** Calling [loadStreams()] raises the flag and leaves a task that is to
    lower it. *)
Lemma loadStreams_starts
  (null_read_message : stream_key -> string) (w : world) :
  in_flight (snd (run_sync (loadStreams null_read_message) w))
  /\ loading (fst (run_sync (loadStreams null_read_message) w)) = true.
Proof.
  split; [ | reflexivity ].
  cbn -[filtered_out_warning]. intros s.
  apply finally_resetting. apply loadStreams_body_quiet.
Qed.

Lemma refreshStreams_starts
  (null_read_message : stream_key -> string) (w : world) :
  in_flight (snd (run_sync (refreshStreams null_read_message) w))
  /\ loading (fst (run_sync (refreshStreams null_read_message) w)) = true.
Proof.
  apply (loadStreams_starts null_read_message
           (apply_effect (Toast refreshing_toast) w)).
Qed.

(** Resuming a task that is to lower the flag: it ends and the flag is
    down, or it suspends again and the flag is as it was. *)
Lemma resetting_run_sync (m : task) (w : world) :
  resetting m ->
  (finished (snd (run_sync m w)) = true
   /\ loading (fst (run_sync m w)) = false)
  \/ (in_flight (snd (run_sync m w))
      /\ loading (fst (run_sync m w)) = loading w).
Proof.
  revert w. induction m as [ a | e | ef k IH | o k IH ]; intros w Hm;
    cbn in Hm.
  - contradiction.
  - contradiction.
  - cbn [run_sync].
    destruct ef as [ l | flag | err | t | msg ];
      try (match goal with
           | |- context [ run_sync k ?w' ] =>
               destruct (IH w' Hm) as [ Hend | [ Hfly Hflag ] ]
           end;
           [ now left | right; split; [ exact Hfly | exact Hflag ] ]).
    cbn in Hm. destruct Hm as [ -> Hk ]. left.
    destruct k; try discriminate Hk; now split.
  - right. split; [ exact Hm | reflexivity ].
Qed.

Lemma in_flight_not_finished (t : task) : in_flight t -> finished t = false.
Proof. destruct t; cbn; try contradiction; reflexivity. Qed.

(** In a pool with one task that has not ended, that task is found at one
    place only. *)
Lemma unfinished_unique (b a before after : list task) (x t : task) :
  forallb finished before = true ->
  forallb finished after = true ->
  finished x = false ->
  (b ++ x :: a)%list = (before ++ t :: after)%list ->
  forallb finished b = true /\ forallb finished a = true /\ x = t.
Proof.
  intros Hbefore Hafter Hx. revert before Hbefore.
  induction b as [ | z b IH ]; intros [ | y before ] Hbefore Heq;
    cbn in Heq; injection Heq as Hhead Htail.
  - subst. now repeat split.
  - subst y. cbn in Hbefore. rewrite Hx in Hbefore. discriminate Hbefore.
  - subst after. rewrite forallb_app in Hafter. cbn in Hafter.
    rewrite Hx, andb_false_r in Hafter. discriminate Hafter.
  - subst y. cbn in Hbefore. apply andb_true_iff in Hbefore as [ Hz Hbefore ].
    destruct (IH before Hbefore Htail) as ( Hb & Ha & Hxt ).
    cbn. rewrite Hz, Hb. now repeat split.
Qed.

Lemma one_cycle_mount (null_read_message : stream_key -> string) :
  one_cycle_at_a_time (mount null_read_message).
Proof.
  right. unfold mount, spawn. cbn [fst snd app].
  pose proof (loadStreams_starts null_read_message initial_world)
    as [ Hfly Hflag ].
  destruct (run_sync (loadStreams null_read_message) initial_world)
    as [ w1 t1 ].
  now exists [], t1, [].
Qed.

Lemma one_cycle_step (null_read_message : stream_key -> string)
  (net : network) (c c' : loop_state) :
  one_cycle_at_a_time c -> ui_step null_read_message net c c' ->
  one_cycle_at_a_time c'.
Proof.
  intros Hc Hui.
  destruct Hui as [ c0 c1 Hstep | c0 selectedStream Hclick ].
  - destruct Hstep as [ w w' b a o k t' Hrun ].
    destruct Hc as [ [ Hq _ ] | ( before & t & after & Hpool & Hbefore
                                  & Hafter & Hfly & Hflag ) ].
    + unfold quiescent in Hq. cbn [snd] in Hq.
      rewrite forallb_app in Hq. cbn in Hq.
      rewrite andb_false_r in Hq. discriminate Hq.
    + cbn [fst snd] in *.
      destruct (unfinished_unique b a before after (Await o k) t
                  Hbefore Hafter eq_refl Hpool) as ( Hb & Ha & <- ).
      cbn in Hfly.
      destruct (resetting_run_sync (k (settle net o)) w (Hfly _))
        as [ [ Hend Hdown ] | [ Hfly' Hsame ] ];
        rewrite Hrun in *; cbn [fst snd] in *.
      * left. split; [ | exact Hdown ].
        unfold quiescent. cbn [snd]. rewrite forallb_app. cbn.
        now rewrite Hb, Hend, Ha.
      * right. exists b, t', a. cbn [fst snd].
        repeat split; try assumption. now rewrite Hsame.
  - assert (Hdown : loading (fst c0) = false).
    { unfold can_refresh, refresh_buttons, page_of, Index in Hclick.
      destruct (loading (fst c0)); [ | reflexivity ].
      destruct (truthy (error (fst c0))), (streams (fst c0));
        discriminate Hclick. }
    destruct Hc as [ [ Hq _ ] | ( before & t & after & _ & _ & _ & _
                                  & Hflag ) ];
      [ | rewrite Hflag in Hdown; discriminate Hdown ].
    right. destruct c0 as [ w pool ]. unfold spawn. cbn [fst snd] in *.
    pose proof (refreshStreams_starts null_read_message w)
      as [ Hfly Hflag ].
    destruct (run_sync (refreshStreams null_read_message) w) as [ w1 t1 ].
    exists pool, t1, []. now repeat split.
Qed.

Lemma one_cycle_steps (null_read_message : stream_key -> string)
  (net : network) (c c' : loop_state) :
  ui_steps null_read_message net c c' ->
  one_cycle_at_a_time c -> one_cycle_at_a_time c'.
Proof.
  induction 1 as [ c | c1 c2 c3 Hstep _ IH ]; intros Hc; [ exact Hc | ].
  apply IH. now apply one_cycle_step with null_read_message net c1.
Qed.

Lemma filter_unfinished_finished (pool : list task) :
  forallb finished pool = true ->
  filter (fun t => negb (finished t)) pool = [].
Proof.
  induction pool as [ | t rest IH ]; [ reflexivity | ].
  cbn. intros H. apply andb_true_iff in H as [ Ht Hrest ].
  rewrite Ht. cbn. now apply IH.
Qed.

(** X12: on a mounted page, load cycles never overlap.  However the turns
    of the loop and the clicks on the refresh buttons the page offers are
    ordered, at most one load is in flight, and [loading] is true exactly
    while one is: every button that starts a load is disabled or off the
    page until the [finally] block of the running load has lowered the
    flag. *)
Theorem page_runs_one_cycle_at_a_time
  (null_read_message : stream_key -> string) (net : network)
  (c : loop_state) :
  ui_steps null_read_message net (mount null_read_message) c ->
  length (in_flight_tasks c) <= 1
  /\ loading (fst c) = negb (quiescent c).
Proof.
  intros Hsteps.
  pose proof (one_cycle_steps null_read_message net _ c Hsteps
                (one_cycle_mount null_read_message)) as Hc.
  destruct Hc as [ [ Hq Hdown ] | ( before & t & after & Hpool & Hbefore
                                    & Hafter & Hfly & Hflag ) ].
  - unfold in_flight_tasks. unfold quiescent in Hq.
    rewrite (filter_unfinished_finished _ Hq).
    split; [ cbn; lia | ].
    unfold quiescent. now rewrite Hq, Hdown.
  - apply in_flight_not_finished in Hfly.
    unfold in_flight_tasks, quiescent. rewrite Hpool, filter_app.
    cbn [filter]. rewrite Hfly. cbn [negb].
    rewrite (filter_unfinished_finished _ Hbefore),
      (filter_unfinished_finished _ Hafter).
    split; [ cbn; lia | ].
    rewrite forallb_app. cbn. rewrite Hfly, andb_false_r. exact Hflag.
Qed.

Lemma page_runs_one_cycle_at_a_time_witness :
  length (in_flight_tasks
            (spawn (refreshStreams v8_null_read_message)
               (load v8_null_read_message (serve (JArray [entryA]))
                  initial_world, [Ret tt]))) <= 1
  /\ loading (fst (spawn (refreshStreams v8_null_read_message)
                     (load v8_null_read_message (serve (JArray [entryA]))
                        initial_world, [Ret tt])))
     = negb (quiescent
               (spawn (refreshStreams v8_null_read_message)
                  (load v8_null_read_message (serve (JArray [entryA]))
                     initial_world, [Ret tt]))).
Proof.
  apply (page_runs_one_cycle_at_a_time v8_null_read_message
           (serve (JArray [entryA]))).
  unfold mount, spawn. cbn.
  mounted_turn. mounted_turn.
  eapply ui_trans; [ apply (ui_refresh _ _ _ None); reflexivity | ].
  apply ui_refl.
Defined.

(** ** What the catalog cell holds *)

Lemma published_valid (efs : list effect) (before : list json) :
  publishes_valid efs ->
  forallb validEntry before = true ->
  forallb validEntry (published efs before) = true.
Proof.
  intros H. revert before.
  induction H as [ | ef efs Hef _ IH ]; intros before Hbefore;
    [ exact Hbefore | ].
  cbn [published fold_left]. fold (published efs).
  apply IH. destruct ef; try exact Hbefore. now apply Hef.
Qed.

Lemma forallb_filter {A : Type} (p : A -> bool) (l : list A) :
  forallb p (filter p l) = true.
Proof.
  induction l as [ | x rest IH ]; [ reflexivity | ].
  cbn. destruct (p x) eqn:Hx; [ | exact IH ].
  cbn. now rewrite Hx.
Qed.

Lemma loadStreams_publishes_valid
  (null_read_message : stream_key -> string) (net : network) :
  publishes_valid (trace net (loadStreams null_read_message)).
Proof.
  destruct (fetch_or_parse_failure net) as [ e | ] eqn:Hfail.
  - rewrite (trace_fetch_or_parse_failure null_read_message net e Hfail).
    repeat constructor; discriminate.
  - destruct (no_failure_serves_array net Hfail) as [ elems Hnet ].
    rewrite (trace_array null_read_message net elems Hnet).
    destruct (existsb is_null elems);
      [ repeat constructor; discriminate | ].
    unfold publishing_cycle.
    destruct (length (filter validEntry elems) =? length elems)%nat,
             (length (filter validEntry elems) =? 0)%nat; cbn;
      repeat constructor; intros l H; try discriminate H;
      injection H as <-; apply forallb_filter.
Qed.

Lemma catalog_valid_resume (net : network) (m : task) (w : world) :
  publishes_valid (trace net m) ->
  forallb validEntry (streams w) = true ->
  forallb validEntry (streams (fst (run_sync m w))) = true
  /\ publishes_valid (trace net (snd (run_sync m w))).
Proof.
  intros Hm Hw.
  destruct (run_sync_trace net m w) as ( prefix & Hfst & Htrace ).
  rewrite Htrace in Hm. apply Forall_app in Hm as [ Hprefix Hrest ].
  split; [ | exact Hrest ].
  rewrite Hfst, streams_apply_effects. now apply published_valid.
Qed.

Lemma catalog_valid_spawn (net : network) (t : task) (c : loop_state) :
  publishes_valid (trace net t) ->
  catalog_valid net c -> catalog_valid net (spawn t c).
Proof.
  intros Ht [ Hw Hpool ]. destruct c as [ w pool ].
  unfold catalog_valid, spawn. cbn [fst snd] in *.
  destruct (catalog_valid_resume net t w Ht Hw) as [ Hw' Ht' ].
  destruct (run_sync t w) as [ w' t' ]. cbn [fst snd] in *.
  split; [ exact Hw' | ].
  apply Forall_app. split; [ exact Hpool | now constructor ].
Qed.

Lemma catalog_valid_step (null_read_message : stream_key -> string)
  (net : network) (c c' : loop_state) :
  catalog_valid net c -> ui_step null_read_message net c c' ->
  catalog_valid net c'.
Proof.
  intros Hc Hui.
  destruct Hui as [ c0 c1 Hstep | c0 selectedStream Hclick ].
  - destruct Hstep as [ w w' b a o k t' Hrun ].
    destruct Hc as [ Hw Hpool ]. cbn [fst snd] in *.
    apply Forall_app in Hpool as [ Hb Hrest ].
    apply Forall_cons_iff in Hrest as [ Ht Ha ]. cbn [trace] in Ht.
    destruct (catalog_valid_resume net (k (settle net o)) w Ht Hw)
      as [ Hw' Ht' ].
    rewrite Hrun in Hw', Ht'. cbn [fst snd] in *.
    split; [ exact Hw' | ].
    apply Forall_app. split; [ exact Hb | now constructor ].
  - apply catalog_valid_spawn; [ | exact Hc ].
    constructor; [ discriminate | apply loadStreams_publishes_valid ].
Qed.

Lemma catalog_valid_steps (null_read_message : stream_key -> string)
  (net : network) (c c' : loop_state) :
  ui_steps null_read_message net c c' ->
  catalog_valid net c -> catalog_valid net c'.
Proof.
  induction 1 as [ c | c1 c2 c3 Hstep _ IH ]; intros Hc; [ exact Hc | ].
  apply IH. now apply catalog_valid_step with null_read_message c1.
Qed.

(** X13: at every moment of a mounted page, between any two turns of the
    loop, each entry in the [streams] cell is a [Stream]: the cell is
    written by [setStreams(validStreams)] only, so what the grid maps over
    has the three string fields the cards read. *)
Theorem catalog_holds_streams_only
  (null_read_message : stream_key -> string) (net : network)
  (c : loop_state) (entry : json) :
  ui_steps null_read_message net (mount null_read_message) c ->
  In entry (streams (fst c)) ->
  exists s, as_stream entry = Some s.
Proof.
  intros Hsteps Hin.
  assert (Hc : catalog_valid net c).
  { apply (catalog_valid_steps null_read_message net _ c Hsteps).
    apply catalog_valid_spawn; [ apply loadStreams_publishes_valid | ].
    split; [ reflexivity | constructor ]. }
  destruct Hc as [ Hw _ ].
  rewrite forallb_forall in Hw.
  now apply validEntry_as_stream, Hw.
Qed.

Lemma catalog_holds_streams_only_witness :
  exists s, as_stream entryC = Some s.
Proof.
  apply (catalog_holds_streams_only v8_null_read_message
           (serve (JArray [entryB; entryC]))
           (load v8_null_read_message (serve (JArray [entryB; entryC]))
              initial_world, [Ret tt])
           entryC).
  - unfold mount, spawn. cbn.
    mounted_turn. mounted_turn. apply ui_refl.
  - cbn. left. reflexivity.
Defined.

(** ** What the page comes to rest on *)

Lemma finished_run (net : network) (t : task) (w : world) :
  finished t = true -> fst (run net t w) = w.
Proof. destruct t; cbn; try discriminate; reflexivity. Qed.

(** What a cycle leaves on display depends on the state it starts from
    through the entries only. *)
Lemma load_same_catalog (null_read_message : stream_key -> string)
  (net : network) (w w0 : world) :
  streams w = streams (load null_read_message net w0) ->
  same_catalog (load null_read_message net w)
               (load null_read_message net w0).
Proof.
  destruct (trace_loadStreams_cases null_read_message net)
    as [ [ e He ] | ( kept & total & Hk ) ].
  - rewrite !(load_failed null_read_message net _ e He).
    cbn [streams]. intros ->. now split.
  - rewrite !(load_published null_read_message net _ kept total Hk).
    intros _. now split.
Qed.

Lemma settling_step (null_read_message : stream_key -> string)
  (net : network) (w0 : world) (c c' : loop_state) :
  one_cycle_at_a_time c ->
  settling net (load null_read_message net w0) c ->
  ui_step null_read_message net c c' ->
  settling net (load null_read_message net w0) c'.
Proof.
  intros Hone [ Hrun Hrest ] Hui.
  destruct Hui as [ c0 c1 Hstep | c0 selectedStream Hclick ].
  - destruct Hstep as [ w w' b a o k t' Hsync ].
    destruct Hone as [ [ Hq _ ] | ( before & t & after & Hpool & Hbefore
                                    & Hafter & Hfly & _ ) ].
    { unfold quiescent in Hq. cbn [snd] in Hq.
      rewrite forallb_app in Hq. cbn in Hq.
      rewrite andb_false_r in Hq. discriminate Hq. }
    cbn [fst snd] in *.
    destruct (unfinished_unique b a before after (Await o k) t
                Hbefore Hafter eq_refl Hpool) as ( Hb & Ha & _ ).
    assert (Hsame : same_catalog (fst (run net t' w'))
                      (load null_read_message net w0)).
    { pose proof (run_run_sync net (k (settle net o)) w) as Heq.
      rewrite Hsync in Heq. cbn [fst snd] in Heq. rewrite Heq.
      apply (Hrun (Await o k)); [ | reflexivity ].
      apply in_or_app. right. now left. }
    rewrite forallb_forall in Hb, Ha.
    split.
    + intros t0 Hin Hunfinished.
      apply in_app_or in Hin as [ Hin | [ <- | Hin ] ].
      * rewrite (Hb t0 Hin) in Hunfinished. discriminate Hunfinished.
      * exact Hsame.
      * rewrite (Ha t0 Hin) in Hunfinished. discriminate Hunfinished.
    + unfold quiescent. cbn [snd]. rewrite forallb_app. cbn [forallb].
      intros Hq. apply andb_true_iff in Hq as [ _ Hq ].
      apply andb_true_iff in Hq as [ Hend _ ].
      now rewrite (finished_run net t' w' Hend) in Hsame.
  - assert (Hdown : loading (fst c0) = false).
    { unfold can_refresh, refresh_buttons, page_of, Index in Hclick.
      destruct (loading (fst c0)); [ | reflexivity ].
      destruct (truthy (error (fst c0))), (streams (fst c0));
        discriminate Hclick. }
    destruct Hone as [ [ Hq _ ] | ( before & t & after & _ & _ & _ & _
                                    & Hflag ) ];
      [ | rewrite Hflag in Hdown; discriminate Hdown ].
    destruct (Hrest Hq) as [ Hstreams _ ].
    destruct c0 as [ w pool ]. unfold spawn. cbn [fst snd] in *.
    pose proof (run_run_sync net (refreshStreams null_read_message) w)
      as Heq.
    destruct (run_sync (refreshStreams null_read_message) w) as [ w1 t1 ].
    cbn [fst snd] in *.
    assert (Hsame : same_catalog (fst (run net t1 w1))
                      (load null_read_message net w0)).
    { rewrite Heq.
      apply (load_same_catalog null_read_message net
               (apply_effect (Toast refreshing_toast) w) w0).
      exact Hstreams. }
    unfold quiescent in Hq. rewrite forallb_forall in Hq.
    split.
    + intros t0 Hin Hunfinished.
      apply in_app_or in Hin as [ Hin | [ <- | [] ] ];
        [ | exact Hsame ].
      rewrite (Hq t0 Hin) in Hunfinished. discriminate Hunfinished.
    + unfold quiescent. cbn [fst snd]. rewrite forallb_app. cbn [forallb].
      intros Hq'. apply andb_true_iff in Hq' as [ _ Hq' ].
      apply andb_true_iff in Hq' as [ Hend _ ].
      now rewrite (finished_run net t1 w1 Hend) in Hsame.
Qed.

Lemma settling_steps (null_read_message : stream_key -> string)
  (net : network) (w0 : world) (c c' : loop_state) :
  ui_steps null_read_message net c c' ->
  one_cycle_at_a_time c ->
  settling net (load null_read_message net w0) c ->
  settling net (load null_read_message net w0) c'.
Proof.
  induction 1 as [ c | c1 c2 c3 Hstep _ IH ]; intros Hone Hc;
    [ exact Hc | ].
  apply IH.
  - now apply one_cycle_step with null_read_message net c1.
  - now apply settling_step with c1.
Qed.

(** X14: against a source that keeps answering the same, a mounted page
    always comes to rest on the same catalog: whatever refresh buttons the
    user clicks and whenever, each time no load is running the page has
    the entries and the error the first load ended with, and [loading] is
    false. *)
Theorem page_rests_on_first_load
  (null_read_message : stream_key -> string) (net : network)
  (c : loop_state) :
  ui_steps null_read_message net (mount null_read_message) c ->
  quiescent c = true ->
  streams (fst c) = streams (load null_read_message net initial_world)
  /\ error (fst c) = error (load null_read_message net initial_world)
  /\ loading (fst c) = false.
Proof.
  intros Hsteps Hq.
  assert (Hmount : settling net (load null_read_message net initial_world)
                     (mount null_read_message)).
  { unfold mount, spawn. cbn [fst snd app].
    pose proof (run_run_sync net (loadStreams null_read_message)
                  initial_world) as Heq.
    destruct (run_sync (loadStreams null_read_message) initial_world)
      as [ w1 t1 ]. cbn [fst snd] in *.
    assert (Hsame : same_catalog (fst (run net t1 w1))
                      (load null_read_message net initial_world)).
    { rewrite Heq. now split. }
    split.
    - intros t [ <- | [] ] _. exact Hsame.
    - unfold quiescent. cbn. rewrite andb_true_r. intros Hend.
      now rewrite (finished_run net t1 w1 Hend) in Hsame. }
  destruct (settling_steps null_read_message net initial_world _ c Hsteps
              (one_cycle_mount null_read_message) Hmount) as [ _ Hrest ].
  destruct (Hrest Hq) as [ Hstreams Herror ].
  split; [ exact Hstreams | split; [ exact Herror | ] ].
  pose proof (one_cycle_steps null_read_message net _ c Hsteps
                (one_cycle_mount null_read_message))
    as [ [ _ Hdown ] | ( before & t & after & Hpool & _ & _ & Hfly & _ ) ];
    [ exact Hdown | ].
  apply in_flight_not_finished in Hfly.
  unfold quiescent in Hq. rewrite Hpool, forallb_app in Hq. cbn in Hq.
  rewrite Hfly, andb_false_r in Hq. discriminate Hq.
Qed.

Lemma page_rests_on_first_load_witness :
  streams (load v8_null_read_message (serve (JArray [entryA; entryB]))
             (apply_effect (Toast refreshing_toast)
                (load v8_null_read_message (serve (JArray [entryA; entryB]))
                   initial_world)))
  = streams (load v8_null_read_message (serve (JArray [entryA; entryB]))
               initial_world)
  /\ error (load v8_null_read_message (serve (JArray [entryA; entryB]))
              (apply_effect (Toast refreshing_toast)
                 (load v8_null_read_message
                    (serve (JArray [entryA; entryB])) initial_world)))
     = error (load v8_null_read_message (serve (JArray [entryA; entryB]))
                initial_world)
  /\ loading (load v8_null_read_message (serve (JArray [entryA; entryB]))
                (apply_effect (Toast refreshing_toast)
                   (load v8_null_read_message
                      (serve (JArray [entryA; entryB])) initial_world)))
     = false.
Proof.
  apply (page_rests_on_first_load v8_null_read_message
           (serve (JArray [entryA; entryB]))
           (load v8_null_read_message (serve (JArray [entryA; entryB]))
              (apply_effect (Toast refreshing_toast)
                 (load v8_null_read_message
                    (serve (JArray [entryA; entryB])) initial_world)),
            [Ret tt; Ret tt])).
  - unfold mount, spawn. cbn.
    mounted_turn. mounted_turn.
    eapply ui_trans; [ apply (ui_refresh _ _ _ None); reflexivity | ].
    unfold spawn. cbn.
    page_turn [@Ret unit tt] (@nil task).
    page_turn [@Ret unit tt] (@nil task).
    apply ui_refl.
  - reflexivity.
Defined.
